(** * Quantum circuit editor: grid snapping and connection resolution

    A shallow embedding of [src/main.py].  The program is a PyQt6 diagram
    editor; what is embedded here is the logic that the event handlers run:

    - [ComponentIcon.mousePressEvent] (the payload of a drag) and the
      palette of [QuantumToolbar],
    - [SimulationWindow.dropEvent] (payload parsing and the drop-time snap),
    - [CircuitComponent.mouseReleaseEvent] (the drag-release snap),
    - [SimulationScene.check_connections] and
      [SimulationScene.add_connection_line] (connection resolution).

    Modelling conventions.

    - A Qt coordinate ([QPointF], a pair of doubles) is a pair of rationals
      [Q]; arithmetic on coordinates is exact.  Every finite double is a
      rational, so every position the program can hold is covered; what is
      abstracted is the rounding of the floating-point operations themselves.
    - [QGraphicsItem.setPos] is embedded as a write of the position.  Qt
      skips the move when the new position compares equal to the current
      one under its tolerant comparison of points.  On pixel points (integer
      coordinates of magnitude below 10^12) that comparison is equality, and
      the theorems that state where a component ends are about such points.
    - A Python [str] is the list of its Unicode code points.
    - Python objects have identity and are mutated in place.  They live in a
      store ([heap]) addressed by references; the scene holds references, and
      so do [connected_prev], [connected_next] and the tags of a line.
    - A Python exception is a value of [exn]; code that can raise runs in the
      state-and-error monad [M].
    - The calls the program makes to [QGraphicsScene.removeItem] and
      [QGraphicsScene.addItem] are recorded in the scene's [calls]. *)

From Stdlib Require Import ZArith QArith Qround Qabs Lia Lqa String Ascii.
From Stdlib Require DecimalPos.
From stdpp Require Import base option list relations.

(** ** Python built-ins used by the program *)

Module Py.

(** A [str]: the sequence of its code points. *)
Definition str : Type := list N.

(** The code points of an ASCII literal. *)
Definition of_string (s : string) : str :=
  List.map N_of_ascii (list_ascii_of_string s).

Definition comma : N := 44%N.

(** [s.split(sep)] for a one-character separator: every occurrence of
    [sep] ends a field, so the result has one field more than [s] has
    separators (and is never empty). *)
Fixpoint split (sep : N) (s : str) : list str :=
  match s with
  | [] => [[]]
  | ch :: rest =>
      if N.eqb ch sep then [] :: split sep rest
      else match split sep rest with
           | w :: ws => (ch :: w) :: ws
           | [] => [[ch]]
           end
  end.

(** [s.isnumeric()]: [s] is not empty and each of its characters has a
    Unicode numeric type.  The Unicode table is the argument [numeric]. *)
Definition isnumeric (numeric : N -> bool) (s : str) : bool :=
  match s with
  | [] => false
  | _ => forallb numeric s
  end.

(** [round(q)] on a float: the nearest integer, a tie going to the even
    neighbour. *)
Definition round (q : Q) : Z :=
  let f := Qfloor q in
  match Qcompare (q - inject_Z f) (1 # 2) with
  | Lt => f
  | Gt => (f + 1)%Z
  | Eq => if Z.even f then f else (f + 1)%Z
  end.

(** [a % b] for a float [a] and a non-zero [b]: the remainder has the sign
    of the divisor, [a - b * floor(a / b)]. *)
Definition mod_ (a : Q) (b : Z) : Q :=
  a - inject_Z b * inject_Z (Qfloor (a / inject_Z b)).

(** The decimal digits of [d], most significant first. *)
Fixpoint digits (d : Decimal.uint) : str :=
  match d with
  | Decimal.Nil => []
  | Decimal.D0 d' => 48%N :: digits d'
  | Decimal.D1 d' => 49%N :: digits d'
  | Decimal.D2 d' => 50%N :: digits d'
  | Decimal.D3 d' => 51%N :: digits d'
  | Decimal.D4 d' => 52%N :: digits d'
  | Decimal.D5 d' => 53%N :: digits d'
  | Decimal.D6 d' => 54%N :: digits d'
  | Decimal.D7 d' => 55%N :: digits d'
  | Decimal.D8 d' => 56%N :: digits d'
  | Decimal.D9 d' => 57%N :: digits d'
  end.

Definition minus : N := 45%N.

(** [str(n)] for an [int]: its decimal digits without a leading zero, after
    a minus sign when [n] is negative. *)
Definition str_of_int (n : Z) : str :=
  match Z.to_int n with
  | Decimal.Pos d => digits d
  | Decimal.Neg d => minus :: digits d
  end.

End Py.

(** ** Exceptions and the monad of the event handlers *)

Inductive exn :=
| ZeroDivisionError
| IndexError
| ValueError
| AttributeError.

(** The outcome of code that can raise: [inl e] when it raised [e]. *)
Definition result (A : Type) : Type := (exn + A)%type.

(** ** Module constants (main.py, lines 9-10) *)

Definition TYPE_QUBIT : Z := 0.
Definition TYPE_GATE : Z := 1.

(** ** Data *)

Record QPointF := QPoint { xp : Q; yp : Q }.

Definition QPointF_sub (a b : QPointF) : QPointF :=
  QPoint (xp a - xp b) (yp a - yp b).

(** [QPointF.manhattanLength()]: the sum of the absolute values of the
    coordinates. *)
Definition manhattanLength (p : QPointF) : Q :=
  Qabs (xp p) + Qabs (yp p).

Record QPixmap := { width : Z; height : Z }.

(** A reference to a Python object: its index in the store. *)
Abbreviation ref := nat (only parsing).

(** The attributes of a [CircuitComponent] (main.py, lines 16-23), with the
    position and pixmap that its Qt base class holds. *)
Record CircuitComponent := {
  component_name : Py.str;
  component_type : Z;
  grid_size : Z;
  pixmap : QPixmap;
  pos : QPointF;
  connected_prev : option ref;
  connected_next : option ref
}.

(** A [QGraphicsLineItem] with the two attributes that
    [add_connection_line] attaches to it. *)
Record QGraphicsLineItem := {
  line : Q * Q * Q * Q;
  qubit : ref;
  gate : ref
}.

Inductive QGraphicsItem :=
| Component (c : CircuitComponent)
| Line (l : QGraphicsLineItem).

(** ** The grid snapper *)

(** The drag-release snap of one coordinate (main.py, lines 48-49):
    [round(x / grid_size) * grid_size]. *)
Definition snap_nearest_coord (v : Q) (g : Z) : Z :=
  (Py.round (v / inject_Z g) * g)%Z.

Definition snap_nearest (p : QPointF) (g : Z) : QPointF :=
  QPoint (inject_Z (snap_nearest_coord (xp p) g))
         (inject_Z (snap_nearest_coord (yp p) g)).

(** The drop-time snap (main.py, line 240):
    [p - QPointF(p.x() % scale, p.y() % scale)]. *)
Definition snap_floor (p : QPointF) (g : Z) : QPointF :=
  QPointF_sub p (QPoint (Py.mod_ (xp p) g) (Py.mod_ (yp p) g)).

(** ** The scene and the object store *)

(** A call that the program makes to the Qt scene. *)
Inductive SceneCall :=
| RemoveItem (it : option ref)
| AddItem (it : ref).

(** [heap] is the store of the Python objects created so far (an object
    removed from the scene stays in the store: other objects may still refer
    to it); [items] is what [QGraphicsScene.items()] returns, most recently
    added first (Qt's descending stacking order for items of equal z-value);
    [calls] records the calls made to the scene, oldest first. *)
Record SimulationScene := {
  heap : list QGraphicsItem;
  items : list ref;
  calls : list SceneCall
}.

Definition M (A : Type) : Type :=
  SimulationScene -> result (A * SimulationScene).

#[global] Instance result_ret : MRet result := fun A a => inr a.
#[global] Instance result_bind : MBind result := fun A B f m =>
  match m with
  | inl e => inl e
  | inr a => f a
  end.

#[global] Instance M_ret : MRet M := fun A a s => inr (a, s).
#[global] Instance M_bind : MBind M := fun A B f m s =>
  match m s with
  | inl e => inl e
  | inr (a, s') => f a s'
  end.

(** [raise e] inside [M]. *)
Definition throw {A : Type} (e : exn) : M A := fun _ => inl e.

(** *** Attribute updates of a component *)

Definition set_pos (p : QPointF) (c : CircuitComponent) : CircuitComponent :=
  {| component_name := component_name c;
     component_type := component_type c;
     grid_size := grid_size c;
     pixmap := pixmap c;
     pos := p;
     connected_prev := connected_prev c;
     connected_next := connected_next c |}.

Definition set_connected_prev (r : option ref) (c : CircuitComponent)
  : CircuitComponent :=
  {| component_name := component_name c;
     component_type := component_type c;
     grid_size := grid_size c;
     pixmap := pixmap c;
     pos := pos c;
     connected_prev := r;
     connected_next := connected_next c |}.

Definition set_connected_next (r : option ref) (c : CircuitComponent)
  : CircuitComponent :=
  {| component_name := component_name c;
     component_type := component_type c;
     grid_size := grid_size c;
     pixmap := pixmap c;
     pos := pos c;
     connected_prev := connected_prev c;
     connected_next := r |}.

(** ** Qt's test before a move

    [QGraphicsItem.setPos] returns at once, leaving the item where it is,
    when the new position compares equal to the current one; and two
    [QPointF]s compare equal when their coordinates are close enough:
    [qFuzzyIsNull] of the difference when one of the two coordinates is zero,
    [qFuzzyCompare] otherwise. *)

Definition qFuzzyIsNull (d : Q) : bool :=
  Qle_bool (Qabs d) (1 # 1000000000000).

Definition qMin (a b : Q) : Q := if Qle_bool a b then a else b.

Definition qFuzzyCompare (p1 p2 : Q) : bool :=
  Qle_bool (Qabs (p1 - p2) * inject_Z 1000000000000)
           (qMin (Qabs p1) (Qabs p2)).

Definition fuzzy_coord (a b : Q) : bool :=
  if Qeq_bool a 0 || Qeq_bool b 0 then qFuzzyIsNull (a - b)
  else qFuzzyCompare a b.

(** [p1 == p2] on [QPointF]s. *)
Definition QPointF_eq (p1 p2 : QPointF) : bool :=
  fuzzy_coord (xp p1) (xp p2) && fuzzy_coord (yp p1) (yp p2).

(** [item.setPos(p)] as Qt runs it. *)
Definition setPos (p : QPointF) (c : CircuitComponent) : CircuitComponent :=
  if QPointF_eq (pos c) p then c else set_pos p c.

(** A coordinate that is an integer of magnitude below 10^12, and a point
    with two such coordinates: the positions that a pointer on a screen
    gives.  On pixel points Qt's comparison is equality, so that [setPos]
    is the write [set_pos] ([setPos_exact] below).  The handlers of this
    file write positions with [set_pos]; the theorems that state where a
    component ends take the positions involved to be pixel points. *)
Definition pixel_coord (v : Q) : bool :=
  Pos.eqb (Qden (Qred v)) 1
  && (Z.abs (Qnum (Qred v)) <? 1000000000000)%Z.

Definition pixel_point (p : QPointF) : bool :=
  pixel_coord (xp p) && pixel_coord (yp p).

(** *** Access to the store *)

(** The object behind a reference, for an [isinstance] test. *)
Definition deref (r : ref) : M (option QGraphicsItem) :=
  fun s => inr (heap s !! r, s).

(** Reading an attribute of a [CircuitComponent] through [r]: an object of
    another class has no such attribute. *)
Definition get_component (r : ref) : M CircuitComponent :=
  fun s =>
    match heap s !! r with
    | Some (Component c) => inr (c, s)
    | _ => inl AttributeError
    end.

(** In-place update of the component behind [r]. *)
Definition modify_component (r : ref)
    (f : CircuitComponent -> CircuitComponent) : M unit :=
  fun s =>
    match heap s !! r with
    | Some (Component c) =>
        inr (tt, {| heap := <[r := Component (f c)]> (heap s);
                    items := items s;
                    calls := calls s |})
    | _ => inl AttributeError
    end.

(** Object creation: the new object gets a reference no other object has. *)
Definition new_item (o : QGraphicsItem) : M ref :=
  fun s =>
    inr (length (heap s),
         {| heap := heap s ++ [o]; items := items s; calls := calls s |}).

(** *** The Qt scene *)

(** [QGraphicsScene.items()]. *)
Definition get_items : M (list ref) := fun s => inr (items s, s).

(** [item.scene()] as a truth value: whether the item is in the scene. *)
Definition in_scene (r : ref) : M bool :=
  fun s => inr (bool_decide (r ∈ items s), s).

(** [QGraphicsScene.removeItem(it)].  Qt ignores a null item and an item
    that is not in the scene (it prints a warning). *)
Definition removeItem (it : option ref) : M unit :=
  fun s =>
    inr (tt, {| heap := heap s;
                items := match it with
                         | Some r => filter (fun r' => r' ≠ r) (items s)
                         | None => items s
                         end;
                calls := calls s ++ [RemoveItem it] |}).

(** [QGraphicsScene.addItem(it)].  Qt ignores an item that is already in
    the scene. *)
Definition addItem (it : ref) : M unit :=
  fun s =>
    inr (tt, {| heap := heap s;
                items := if bool_decide (it ∈ items s) then items s
                         else it :: items s;
                calls := calls s ++ [AddItem it] |}).

(** ** Connection lines (main.py, lines 164-184) *)

(** The loop of lines 169-172 over the list that [self.items()] returned. *)
Fixpoint remove_connection_lines (qubit0 gate0 : ref) (its : list ref)
  : M unit :=
  match its with
  | [] => mret tt
  | item :: rest =>
      o ← deref item;
      match o with
      | Some (Line l) =>
          if bool_decide (qubit l = qubit0) && bool_decide (gate l = gate0)
          then removeItem (Some item);; remove_connection_lines qubit0 gate0 rest
          else remove_connection_lines qubit0 gate0 rest
      | _ => remove_connection_lines qubit0 gate0 rest
      end
  end.

Definition add_connection_line (qubit0 gate0 : ref) : M unit :=
  its ← get_items;
  remove_connection_lines qubit0 gate0 its;;
  q ← get_component qubit0;
  g ← get_component gate0;
  l ← new_item (Line {|
         line := ((xp (pos q) + inject_Z (width (pixmap q)))%Q,
                  (yp (pos q) + inject_Z (height (pixmap q)) / 2)%Q,
                  xp (pos g),
                  (yp (pos g) + inject_Z (height (pixmap g)) / 2)%Q);
         qubit := qubit0;
         gate := gate0 |});
  addItem l.

(** ** Connection resolution (main.py, lines 129-162) *)

(** The body of the innermost [if] (lines 149-162): what happens once
    [item] is found to be within reach of [component].  The [setPos] of
    line 154 is embedded as the write [set_pos], which is what it does on
    pixel points ([pixel_point]). *)
Definition attach (component item : ref) : M unit :=
  c ← get_component component;
  i ← get_component item;
  (if bool_decide (connected_next i ≠ Some component)
   then removeItem (connected_next i)
   else mret tt);;
  i ← get_component item;
  modify_component component
    (set_pos (QPoint (xp (pos i) + inject_Z (grid_size c * 6)%Z)%Q
                     (yp (pos i))));;
  modify_component component (set_connected_prev (Some item));;
  modify_component item (set_connected_next (Some component));;
  add_connection_line item component.

(** The test of line 148 on the two components. *)
Definition within_reach (c i : CircuitComponent) : bool :=
  Qle_bool (manhattanLength (QPointF_sub (pos c) (pos i)))
           (inject_Z (grid_size c * 8)%Z).

(** The loop of lines 139-162 over the list that [self.items()] returned. *)
Fixpoint scan (component : ref) (its : list ref) : M unit :=
  match its with
  | [] => mret tt
  | item :: rest =>
      if bool_decide (item = component) then scan component rest
      else
        o ← deref item;
        match o with
        | Some (Component i) =>
            c ← get_component component;
            if Z.eqb (component_type c) TYPE_GATE
               && Z.eqb (component_type i) TYPE_QUBIT
            then
              if within_reach c i then attach component item
              else scan component rest
            else scan component rest
        | _ => scan component rest
        end
  end.

(** [SimulationScene.check_connections] (the [print] of line 133 has no
    effect on the scene and is left out). *)
Definition check_connections (component : ref) : M unit :=
  c ← get_component component;
  if Z.eqb (component_type c) TYPE_QUBIT then mret tt
  else
    its ← get_items;
    scan component its.

(** ** Mouse release (main.py, lines 40-59) *)

(** While an item is dragged, Qt moves it with the pointer. *)
Definition drag_to (self : ref) (p : QPointF) : M unit :=
  modify_component self (set_pos p).

(** [CircuitComponent.mouseReleaseEvent].  The [setPos] of line 52 is
    embedded as the write [set_pos], which is what it does on pixel points
    ([pixel_point]). *)
Definition mouseReleaseEvent (self : ref) : M unit :=
  c ← get_component self;
  let curr_pos := pos c in
  if Z.eqb (grid_size c) 0 then throw ZeroDivisionError
  else
    modify_component self (set_pos (snap_nearest curr_pos (grid_size c)));;
    sc ← in_scene self;
    if sc : bool then check_connections self else mret tt.

(** ** The window and the drop of a palette icon (main.py, lines 186-242) *)

(** [scale] is the cell size ([self.scale], set to 24 by the constructor). *)
Record SimulationWindow := {
  scale : Z;
  scene : SimulationScene
}.

(** The window as [SimulationWindow.__init__] leaves it. *)
Definition init_window : SimulationWindow :=
  {| scale := 24;
     scene := {| heap := []; items := []; calls := [] |} |}.

(** What [dropEvent] reads from a [QDropEvent]: the text of its MIME data
    ([None] when [hasText()] is false) and the drop position mapped to scene
    coordinates ([self.mapToScene(event.position().toPoint())]). *)
Record QDropEvent := {
  mime_text : option Py.str;
  scene_pos : QPointF
}.

(** [l[n]] for a list and a natural index. *)
Definition index {A : Type} (l : list A) (n : nat) : result A :=
  match l !! n with
  | Some a => inr a
  | None => inl IndexError
  end.

Section Environment.

(** What the program takes from outside its own code: the Unicode table
    behind [str.isnumeric], the built-in [int] on strings ([None] where it
    raises ValueError), and the image files that [QPixmap(path)] loads. *)
Variable unicode_numeric : N -> bool.
Variable py_int : Py.str -> option Z.
Variable load_pixmap : Py.str -> QPixmap.

(** Line 231:
    [int(data[0]) if data[0].isnumeric() else TYPE_QUBIT]. *)
Definition parse_component_type (data : list Py.str) : result Z :=
  data0 ← index data 0;
  if Py.isnumeric unicode_numeric data0 then
    match py_int data0 with
    | Some n => inr n
    | None => inl ValueError
    end
  else inr TYPE_QUBIT.

(** The component that lines 229-240 build from the payload and the drop
    position, before it is added to the scene. *)
Definition dropped_component (scale0 : Z) (event_text : Py.str)
    (itemPosition : QPointF) : result CircuitComponent :=
  let data := Py.split Py.comma event_text in
  component_type0 ← parse_component_type data;
  component_name0 ← index data 1;
  let pixmap0 := load_pixmap (component_name0 ++ Py.of_string ".png") in
  if Z.eqb scale0 0 then inl ZeroDivisionError
  else
    inr {| component_name := component_name0;
           component_type := component_type0;
           grid_size := scale0;
           pixmap := pixmap0;
           pos := snap_floor itemPosition scale0;
           connected_prev := None;
           connected_next := None |}.

Definition dropEvent (self : SimulationWindow) (event : QDropEvent)
  : result SimulationWindow :=
  match mime_text event with
  | None => inr self
  | Some text =>
      item ← dropped_component (scale self) text (scene_pos event);
      '(_, scene') ← (r ← new_item (Component item); addItem r) (scene self);
      inr {| scale := scale self; scene := scene' |}
  end.

(** ** The editor as a transition system *)

(** One user interaction: a drop on the canvas, or the drag of a component
    of the scene to some position followed by the release of the button. *)
Inductive step : SimulationWindow -> SimulationWindow -> Prop :=
| step_drop (w w' : SimulationWindow) (event : QDropEvent) :
    dropEvent w event = inr w' ->
    step w w'
| step_drag_release (w : SimulationWindow) (self : ref) (p : QPointF)
    (scene' : SimulationScene) :
    self ∈ items (scene w) ->
    (drag_to self p;; mouseReleaseEvent self) (scene w) = inr (tt, scene') ->
    step w {| scale := scale w; scene := scene' |}.

Definition reachable (w : SimulationWindow) : Prop := rtc step init_window w.

End Environment.

Section Driver.

Variable unicode_numeric : N -> bool.
Variable py_int : Py.str -> option Z.
Variable load_pixmap : Py.str -> QPixmap.

(** The two interactions as data, so that a session can be run. *)
Inductive UserEvent :=
| Drop (event : QDropEvent)
| DragRelease (self : ref) (p : QPointF).

(** One interaction.  The pointer can only grab an item of the scene; a
    drag addressed to anything else is not delivered. *)
Definition perform (w : SimulationWindow) (e : UserEvent)
  : result SimulationWindow :=
  match e with
  | Drop event => dropEvent unicode_numeric py_int load_pixmap w event
  | DragRelease self p =>
      if bool_decide (self ∈ items (scene w)) then
        match (drag_to self p;; mouseReleaseEvent self) (scene w) with
        | inl e => inl e
        | inr (_, scene') => inr {| scale := scale w; scene := scene' |}
        end
      else inr w
  end.

(** A session: the interactions in order, starting from [w]. *)
Fixpoint run (es : list UserEvent) (w : SimulationWindow)
  : result SimulationWindow :=
  match es with
  | [] => inr w
  | e :: es' =>
      match perform w e with
      | inl x => inl x
      | inr w' => run es' w'
      end
  end.

End Driver.

(** ** Sessions of a pointer on pixel points *)

Section Pixel_sessions.

Variable unicode_numeric : N -> bool.
Variable py_int : Py.str -> option Z.
Variable load_pixmap : Py.str -> QPixmap.

(** One interaction of [step] in which the position at which a dragged
    component is released, and the snap of that position, are pixel
    points. *)
Inductive pixel_step : SimulationWindow -> SimulationWindow -> Prop :=
| pixel_step_drop (w w' : SimulationWindow) (event : QDropEvent) :
    dropEvent unicode_numeric py_int load_pixmap w event = inr w' ->
    pixel_step w w'
| pixel_step_drag_release (w : SimulationWindow) (self : ref)
    (c : CircuitComponent) (p : QPointF) (scene' : SimulationScene) :
    self ∈ items (scene w) ->
    heap (scene w) !! self = Some (Component c) ->
    pixel_point p = true ->
    pixel_point (snap_nearest p (grid_size c)) = true ->
    (drag_to self p;; mouseReleaseEvent self) (scene w) = inr (tt, scene') ->
    pixel_step w {| scale := scale w; scene := scene' |}.

Definition pixel_reachable (w : SimulationWindow) : Prop :=
  rtc pixel_step init_window w.

(** The same condition on an interaction given as data. *)
Definition pixel_event (w : SimulationWindow) (e : UserEvent) : bool :=
  match e with
  | Drop _ => true
  | DragRelease self p =>
      match heap (scene w) !! self with
      | Some (Component c) =>
          pixel_point p && pixel_point (snap_nearest p (grid_size c))
      | _ => true
      end
  end.

Fixpoint pixel_session (es : list UserEvent) (w : SimulationWindow) : bool :=
  match es with
  | [] => true
  | e :: es' =>
      pixel_event w e
      && match perform unicode_numeric py_int load_pixmap w e with
         | inr w' => pixel_session es' w'
         | inl _ => true
         end
  end.

End Pixel_sessions.

(** ** A concrete environment and sessions, for the examples *)

Module Demo.

(** The ASCII digits, with superscript two (a character that
    [str.isnumeric] accepts and [int] rejects). *)
Definition numeric (ch : N) : bool :=
  ((48 <=? ch)%N && (ch <=? 57)%N) || N.eqb ch 178.

Definition digit (ch : N) : bool := (48 <=? ch)%N && (ch <=? 57)%N.

Definition int (s : Py.str) : option Z :=
  match s with
  | [] => None
  | _ =>
      if forallb digit s then
        Some (fold_left (fun acc ch => (acc * 10 + Z.of_N (ch - 48))%Z) s 0%Z)
      else None
  end.

(** Every icon of the palette as a 48 by 48 image. *)
Definition pixmaps (_ : Py.str) : QPixmap := {| width := 48; height := 48 |}.

Definition at_ (x y : Z) : QPointF := QPoint (inject_Z x) (inject_Z y).

Definition drop (payload : string) (x y : Z) : UserEvent :=
  Drop {| mime_text := Some (Py.of_string payload); scene_pos := at_ x y |}.

Definition release (self : ref) (x y : Z) : UserEvent :=
  DragRelease self (at_ x y).

Definition session (es : list UserEvent) : result SimulationWindow :=
  run numeric int pixmaps es init_window.

(** Observations of the outcome of a session. *)
Definition component_of (r : ref) (w : result SimulationWindow)
  : option CircuitComponent :=
  match w with
  | inr w' =>
      match heap (scene w') !! r with
      | Some (Component c) => Some c
      | _ => None
      end
  | inl _ => None
  end.

Definition position_of (r : ref) (w : result SimulationWindow)
  : option QPointF :=
  pos <$> component_of r w.

Definition scene_of (w : result SimulationWindow) : SimulationScene :=
  match w with
  | inr w' => scene w'
  | inl _ => scene init_window
  end.


(** A qubit (object 0) and two gates (objects 1 and 3); the first gate is
    released next to the qubit (its line is object 2), then the second. *)
Definition eviction_before : list UserEvent :=
  [ drop "0,qubit-0" 13 5;
    drop "1,Pauli-X" 60 10;
    release 1 50 10;
    drop "1,Pauli-Y" 60 100 ].

Definition eviction : list UserEvent :=
  eviction_before ++ [ release 3 50 10 ].

(** Two qubits (objects 0 and 1) and a gate (object 2); the gate is released
    next to the first qubit, then next to the second. *)
Definition rebinding : list UserEvent :=
  [ drop "0,qubit-0" 0 0;
    drop "0,qubit-1" 0 480;
    drop "1,Pauli-X" 60 10;
    release 2 50 10;
    release 2 50 470 ].

(** The scenes that these two sessions lead to, evaluated. *)
Definition evicting : SimulationScene :=
  Eval vm_compute in scene_of (session eviction_before).

Definition after_eviction : SimulationScene :=
  Eval vm_compute in scene_of (session eviction).

Definition after_rebinding : SimulationScene :=
  Eval vm_compute in scene_of (session rebinding).

(** A qubit at the origin and a gate dragged to (100, 0): scenario 2. *)
Definition scenario_2 : list UserEvent :=
  [ drop "0,qubit-0" 13 5;
    drop "1,Pauli-X" 300 300;
    release 1 100 0 ].

(** Two qubits (objects 0 and 1) within reach of a gate (object 2) that has
    just been dropped between them. *)
Definition two_in_reach : list UserEvent :=
  [ drop "0,qubit-0" 0 0;
    drop "0,qubit-1" 0 48;
    drop "1,Pauli-X" 50 30 ].

(** A qubit (object 0) and a gate (object 1) dropped next to it. *)
Definition gate_in_reach : list UserEvent :=
  [ drop "0,qubit-0" 13 5;
    drop "1,Pauli-X" 100 10 ].

(** A qubit (object 0) and a gate (object 1) dropped far from it. *)
Definition gate_out_of_reach : list UserEvent :=
  [ drop "0,qubit-0" 13 5;
    drop "1,Pauli-X" 300 300 ].

End Demo.

(** ** What connection resolution computes, as state-to-state functions

    The definitions below describe the scene that [attach] leaves behind,
    without the monad; [attach_bound] proves that the code computes them. *)

(** The test of line 171: [r] is a line tagged with the pair [(q, g)]. *)
Definition line_of (h : list QGraphicsItem) (q g : ref) (r : ref) : bool :=
  match h !! r with
  | Some (Line l) => bool_decide (qubit l = q) && bool_decide (gate l = g)
  | _ => false
  end.

(** [its] after [removeItem] was called on each of [rs]. *)
Definition without (rs : list ref) (its : list ref) : list ref :=
  fold_left (fun acc r => filter (fun r' => r' ≠ r) acc) rs its.

(** [its] after [addItem r]. *)
Definition added (r : ref) (its : list ref) : list ref :=
  if bool_decide (r ∈ its) then its else r :: its.

(** The line of lines 175-183 between the components [q] and [g]. *)
Definition connection_line (q g : CircuitComponent) (qubit0 gate0 : ref)
  : QGraphicsLineItem :=
  {| line := ((xp (pos q) + inject_Z (width (pixmap q)))%Q,
              (yp (pos q) + inject_Z (height (pixmap q)) / 2)%Q,
              xp (pos g),
              (yp (pos g) + inject_Z (height (pixmap g)) / 2)%Q);
     qubit := qubit0;
     gate := gate0 |}.

(** The scene after lines 150-151, [old] being [item.connected_next]. *)
Definition evicted (old : option ref) (component : ref) (s : SimulationScene)
  : SimulationScene :=
  if bool_decide (old ≠ Some component) then
    {| heap := heap s;
       items := match old with
                | Some r => filter (fun r' => r' ≠ r) (items s)
                | None => items s
                end;
       calls := calls s ++ [RemoveItem old] |}
  else s.

(** The moved component and the qubit after lines 154-158. *)
Definition attached (component item : ref) (c i : CircuitComponent)
  : CircuitComponent * CircuitComponent :=
  (set_connected_prev (Some item)
     (set_pos (QPoint (xp (pos i) + inject_Z (grid_size c * 6)%Z)%Q
                      (yp (pos i))) c),
   set_connected_next (Some component) i).

(** The scene after [attach component item], where [c] and [i] are the two
    components as they were before. *)
Definition bound_scene (s : SimulationScene) (component item : ref)
    (c i : CircuitComponent) : SimulationScene :=
  let s1 := evicted (connected_next i) component s in
  let h := <[item := Component (attached component item c i).2]>
             (<[component := Component (attached component item c i).1]>
                (heap s)) in
  let stale := List.filter (line_of h item component) (items s1) in
  {| heap := h ++ [Line (connection_line (attached component item c i).2
                           (attached component item c i).1 item component)];
     items := added (length h) (without stale (items s1));
     calls := (calls s1 ++ List.map (fun r => RemoveItem (Some r)) stale)
              ++ [AddItem (length h)] |}.

(** The tests of lines 140, 144 and 148 on one item of the scan: [item] is
    another object than [component], both are components, [component] is a
    gate, [item] is a qubit, and the qubit is within reach. *)
Definition candidate (s : SimulationScene) (component item : ref) : bool :=
  match heap s !! component, heap s !! item with
  | Some (Component c), Some (Component i) =>
      negb (bool_decide (item = component))
      && (Z.eqb (component_type c) TYPE_GATE
          && Z.eqb (component_type i) TYPE_QUBIT)
      && within_reach c i
  | _, _ => false
  end.

(** [item] is the first candidate that the scan of [check_connections]
    meets: it is a candidate, and nothing before it in [items()] is. *)
Definition first_candidate (s : SimulationScene) (component item : ref)
  : Prop :=
  exists before after,
    items s = before ++ item :: after /\
    candidate s component item = true /\
    forall r, r ∈ before -> candidate s component r = false.

(** ** Properties of the links *)

(** A line tagged [(q, g)] is on the canvas. *)
Definition line_on_canvas (s : SimulationScene) (q g : ref) : Prop :=
  exists r l,
    r ∈ items s /\ heap s !! r = Some (Line l) /\ qubit l = q /\ gate l = g.

(** The symmetry of the links as the specification words it, for the
    components on the canvas: [connected_next], if set, is a gate whose
    [connected_prev] points back, and [connected_prev], if set, is a qubit
    whose [connected_next] points back. *)
Definition link_symmetry (s : SimulationScene) : Prop :=
  forall r c, r ∈ items s -> heap s !! r = Some (Component c) ->
    (forall g, connected_next c = Some g ->
       exists c', heap s !! g = Some (Component c') /\
                  component_type c' = TYPE_GATE /\
                  connected_prev c' = Some r) /\
    (forall q, connected_prev c = Some q ->
       exists i, heap s !! q = Some (Component i) /\
                 component_type i = TYPE_QUBIT /\
                 connected_next i = Some r).

(** The half of the symmetry that starts from [connected_prev]. *)
Definition prev_symmetry (s : SimulationScene) : Prop :=
  forall r c q, r ∈ items s -> heap s !! r = Some (Component c) ->
    connected_prev c = Some q ->
    exists i, heap s !! q = Some (Component i) /\
              component_type i = TYPE_QUBIT /\
              connected_next i = Some r.

(** What is left of the other half: [connected_next], if set, is a gate
    that is attached to some qubit. *)
Definition next_attached (s : SimulationScene) : Prop :=
  forall r c g, heap s !! r = Some (Component c) ->
    connected_next c = Some g ->
    exists c', heap s !! g = Some (Component c') /\
               component_type c' = TYPE_GATE /\
               is_Some (connected_prev c').

(** The invariant behind both: every link joins a gate and a qubit of the
    store, and a component of the canvas with [connected_prev] set is what
    its qubit's [connected_next] refers to. *)
Definition links_ok (s : SimulationScene) : Prop :=
  forall r c, heap s !! r = Some (Component c) ->
    (forall q, connected_prev c = Some q ->
       component_type c = TYPE_GATE /\
       exists i, heap s !! q = Some (Component i) /\
                 component_type i = TYPE_QUBIT /\
                 (r ∈ items s -> connected_next i = Some r)) /\
    (forall g, connected_next c = Some g ->
       component_type c = TYPE_QUBIT /\
       exists c', heap s !! g = Some (Component c') /\
                  component_type c' = TYPE_GATE /\
                  is_Some (connected_prev c')).

(** The lines of the canvas: the scene lists no item twice, no two lines
    of the canvas carry the same tag, and every [connected_next] that is set
    has its line on the canvas. *)
Definition lines_ok (s : SimulationScene) : Prop :=
  NoDup (items s) /\
  (forall r1 r2 l1 l2,
     r1 ∈ items s -> r2 ∈ items s ->
     heap s !! r1 = Some (Line l1) -> heap s !! r2 = Some (Line l2) ->
     qubit l1 = qubit l2 -> gate l1 = gate l2 -> r1 = r2) /\
  (forall q c g,
     heap s !! q = Some (Component c) -> connected_next c = Some g ->
     line_on_canvas s q g).

(** ** Positions *)

(** The scene once the release has snapped the dragged component. *)
Definition snapped (s : SimulationScene) (self : ref) (c : CircuitComponent)
    (p : QPointF) : SimulationScene :=
  {| heap := <[self := Component (set_pos (snap_nearest p (grid_size c)) c)]>
               (heap s);
     items := items s;
     calls := calls s |}.

(** A position whose two coordinates are multiples of [g]. *)
Definition on_grid (p : QPointF) (g : Z) : Prop :=
  exists kx ky : Z,
    (xp p == inject_Z (kx * g))%Q /\ (yp p == inject_Z (ky * g))%Q.

(** Every component of the store has the cell size 24 and sits on the
    grid. *)
Definition aligned (s : SimulationScene) : Prop :=
  forall r c, heap s !! r = Some (Component c) ->
    grid_size c = 24%Z /\ on_grid (pos c) 24.

(** ** The palette and the payload of a drag (main.py, lines 61-123) *)

(** Line 79, the text that [ComponentIcon.mousePressEvent] gives to the
    drag: [str(self.component_type) + "," + self.component_name]. *)
Definition drag_payload (component_type0 : Z) (component_name0 : Py.str)
  : Py.str :=
  Py.str_of_int component_type0 ++ Py.comma :: component_name0.

(** The templates of the palette (lines 101-107): name, kind, and row and
    column in the layout of the toolbar.  Each becomes a [ComponentIcon] with
    that name and kind (line 120). *)
Definition components : list (Py.str * Z * (nat * nat)) :=
  [ (Py.of_string "qubit-0", TYPE_QUBIT, (1, 0)%nat);
    (Py.of_string "qubit-1", TYPE_QUBIT, (1, 1)%nat);
    (Py.of_string "Pauli-X", TYPE_GATE, (3, 0)%nat);
    (Py.of_string "Pauli-Y", TYPE_GATE, (3, 1)%nat);
    (Py.of_string "Pauli-Z", TYPE_GATE, (4, 0)%nat) ].

(** ** Properties of the store *)

(** Every line of the store is tagged with a qubit and a gate of the
    store. *)
Definition lines_tagged (h : list QGraphicsItem) : Prop :=
  forall r l, h !! r = Some (Line l) ->
    exists q g,
      h !! qubit l = Some (Component q) /\
      component_type q = TYPE_QUBIT /\
      h !! gate l = Some (Component g) /\
      component_type g = TYPE_GATE.

(** Every item of the scene is an object of the store, and the lines of the
    store are tagged. *)
Definition store_ok (s : SimulationScene) : Prop :=
  (forall r, r ∈ items s -> r < length (heap s)) /\ lines_tagged (heap s).

(** What an interaction never changes in a component. *)
Definition same_identity (c c' : CircuitComponent) : Prop :=
  component_name c' = component_name c /\
  component_type c' = component_type c /\
  grid_size c' = grid_size c /\
  pixmap c' = pixmap c.

(** The store [h'] extends [h]: every object of [h] is still there, a line
    as it was and a component with its name, kind, cell size and pixmap. *)
Definition extends (h h' : list QGraphicsItem) : Prop :=
  length h <= length h' /\
  forall r,
    match h !! r with
    | Some (Line l) => h' !! r = Some (Line l)
    | Some (Component c) =>
        exists c', h' !! r = Some (Component c') /\ same_identity c c'
    | None => True
    end.

(** * Proofs *)

(** ** The grid snapper *)

Lemma Qfloor_bounds (q : Q) :
  (inject_Z (Qfloor q) <= q)%Q /\ (q < inject_Z (Qfloor q) + 1)%Q.
Proof.
  split; [apply Qfloor_le|].
  pose proof (Qlt_floor q) as H. rewrite inject_Z_plus in H. exact H.
Qed.

Lemma inject_Z_pos (g : Z) : (0 < g)%Z -> (0 < inject_Z g)%Q.
Proof. intros Hg. change 0%Q with (inject_Z 0). rewrite <- Zlt_Qlt. exact Hg. Qed.

Lemma Qdiv_inject_cancel (v : Q) (g : Z) :
  (0 < g)%Z -> (v / inject_Z g * inject_Z g == v)%Q.
Proof.
  intros Hg. pose proof (inject_Z_pos g Hg). field. lra.
Qed.

Lemma snap_floor_coord (v : Q) (g : Z) :
  (0 < g)%Z ->
  let r := (v - Py.mod_ v g)%Q in
  (r <= v)%Q /\ (v - inject_Z g < r)%Q /\
  (r == inject_Z (Qfloor (v / inject_Z g) * g))%Q.
Proof.
  intros Hg r. subst r. unfold Py.mod_.
  pose proof (inject_Z_pos g Hg) as HG.
  pose proof (Qdiv_inject_cancel v g Hg) as Hv.
  destruct (Qfloor_bounds (v / inject_Z g)) as [Hlo Hhi].
  rewrite inject_Z_mult.
  set (d := (v / inject_Z g)%Q) in *.
  set (F := inject_Z (Qfloor d)) in *.
  set (G := inject_Z g) in *.
  assert (H1 : (F * G <= d * G)%Q) by nra.
  assert (H2 : (d * G < (F + 1) * G)%Q) by nra.
  rewrite Hv in H1, H2.
  repeat split; try lra.
Qed.

Lemma round_inject_Z (q : Q) (k : Z) : (q == inject_Z k)%Q -> Py.round q = k.
Proof.
  intros Hq. unfold Py.round.
  rewrite (Qfloor_comp _ _ Hq), Qfloor_Z.
  destruct (Qcompare_spec (q - inject_Z k) (1 # 2)) as [He | Hl | Hg].
  - rewrite Hq in He. lra.
  - reflexivity.
  - rewrite Hq in Hg. lra.
Qed.

Lemma round_nearest (q : Q) :
  (q - (1 # 2) <= inject_Z (Py.round q))%Q /\
  (inject_Z (Py.round q) <= q + (1 # 2))%Q.
Proof.
  unfold Py.round.
  destruct (Qfloor_bounds q) as [Hlo Hhi].
  destruct (Qcompare_spec (q - inject_Z (Qfloor q)) (1 # 2)) as [He | Hl | Hg].
  - destruct (Z.even (Qfloor q)); rewrite ?inject_Z_plus;
      change (inject_Z 1) with 1%Q; split; lra.
  - split; lra.
  - rewrite inject_Z_plus. change (inject_Z 1) with 1%Q. split; lra.
Qed.

Lemma snap_nearest_coord_idem (v : Q) (g : Z) :
  (0 < g)%Z ->
  snap_nearest_coord (inject_Z (snap_nearest_coord v g)) g
  = snap_nearest_coord v g.
Proof.
  intros Hg. unfold snap_nearest_coord at 1 3.
  f_equal. apply round_inject_Z.
  unfold snap_nearest_coord. rewrite inject_Z_mult.
  pose proof (inject_Z_pos g Hg). field. lra.
Qed.

Lemma snap_nearest_coord_near (v : Q) (g : Z) :
  (0 < g)%Z ->
  (Qabs (v - inject_Z (snap_nearest_coord v g)) <= inject_Z g / 2)%Q.
Proof.
  intros Hg. unfold snap_nearest_coord. rewrite inject_Z_mult.
  pose proof (inject_Z_pos g Hg) as HG.
  pose proof (Qdiv_inject_cancel v g Hg) as Hv.
  destruct (round_nearest (v / inject_Z g)) as [Hlo Hhi].
  set (d := (v / inject_Z g)%Q) in *.
  set (R := inject_Z (Py.round d)) in *.
  set (G := inject_Z g) in *.
  clearbody R G d.
  assert (H1 : ((d - (1 # 2)) * G <= R * G)%Q) by nra.
  assert (H2 : (R * G <= (d + (1 # 2)) * G)%Q) by nra.
  assert (Hhalf : (G / 2 == G * (1 # 2))%Q) by field.
  apply Qabs_Qle_condition. rewrite Hhalf. split; lra.
Qed.

(** ** Connection resolution, step by step *)

Lemma remove_connection_lines_eq (q g : ref) (its : list ref) (s : SimulationScene) :
  remove_connection_lines q g its s =
  inr (tt, {| heap := heap s;
              items := without (List.filter (line_of (heap s) q g) its) (items s);
              calls := calls s ++
                       List.map (fun r => RemoveItem (Some r))
                                (List.filter (line_of (heap s) q g) its) |}).
Proof.
  revert s. induction its as [|item rest IH]; intros s; simpl.
  - unfold mret, M_ret, without. simpl. rewrite app_nil_r. destruct s; reflexivity.
  - unfold mbind, M_bind, deref.
    destruct (line_of (heap s) q g item) eqn:B; unfold line_of in B;
      destruct (heap s !! item) as [[c|l]|]; try discriminate B; try apply IH.
    + rewrite B. unfold removeItem at 1. rewrite IH. simpl.
      rewrite <- app_assoc. reflexivity.
    + rewrite B. apply IH.
Qed.

Lemma elem_of_without (rs its : list ref) (r : ref) :
  r ∈ without rs its <-> r ∈ its /\ r ∉ rs.
Proof.
  unfold without. revert its. induction rs as [|a rs IH]; intros its; simpl.
  - split; [intros H; split; [exact H | apply not_elem_of_nil] | intros [H _]; exact H].
  - rewrite IH, list_elem_of_filter, not_elem_of_cons. tauto.
Qed.

Lemma add_connection_line_eq (qubit0 gate0 : ref) (q g : CircuitComponent)
    (s : SimulationScene) :
  heap s !! qubit0 = Some (Component q) ->
  heap s !! gate0 = Some (Component g) ->
  add_connection_line qubit0 gate0 s =
  inr (tt,
       let stale := List.filter (line_of (heap s) qubit0 gate0) (items s) in
       {| heap := heap s ++ [Line (connection_line q g qubit0 gate0)];
          items := added (length (heap s)) (without stale (items s));
          calls := (calls s ++ List.map (fun r => RemoveItem (Some r)) stale)
                   ++ [AddItem (length (heap s))] |}).
Proof.
  intros Hq Hg. unfold add_connection_line, mbind, M_bind, get_items.
  rewrite remove_connection_lines_eq. unfold get_component. simpl.
  rewrite Hq. simpl. rewrite Hg. reflexivity.
Qed.

Lemma attach_eq (component item : ref) (c i : CircuitComponent)
    (s : SimulationScene) :
  heap s !! component = Some (Component c) ->
  heap s !! item = Some (Component i) ->
  item ≠ component ->
  attach component item s =
  add_connection_line item component
    (let s1 := evicted (connected_next i) component s in
     {| heap := <[item := Component (attached component item c i).2]>
                  (<[component := Component (attached component item c i).1]> (heap s));
        items := items s1;
        calls := calls s1 |}).
Proof.
  intros Hc Hi Hne.
  assert (Hlc : component < length (heap s)) by (eapply lookup_lt_Some; eauto).
  assert (Hli : item < length (heap s)) by (eapply lookup_lt_Some; eauto).
  unfold attach, mbind, M_bind. unfold get_component at 1. rewrite Hc.
  unfold get_component at 1. rewrite Hi.
  unfold evicted.
  assert (Hic : component ≠ item) by (intros E; apply Hne; symmetry; exact E).
  destruct (bool_decide (connected_next i ≠ Some component));
    unfold removeItem, mret, M_ret, get_component, modify_component;
    cbn [heap items calls]; rewrite Hi; cbn [heap items calls];
    rewrite Hc; cbn [heap items calls];
    rewrite list_lookup_insert_eq by assumption; cbn [heap items calls];
    rewrite list_insert_insert_eq;
    rewrite list_lookup_insert_ne by assumption;
    rewrite Hi; reflexivity.
Qed.

Lemma scan_find (component : ref) (c : CircuitComponent) (its : list ref)
    (s : SimulationScene) :
  heap s !! component = Some (Component c) ->
  scan component its s =
  match List.find (candidate s component) its with
  | Some item => attach component item s
  | None => inr (tt, s)
  end.
Proof.
  intros Hc. induction its as [|item rest IH]; [reflexivity|].
  cbn [scan List.find]. unfold candidate at 1. rewrite Hc.
  destruct (bool_decide (item = component)) eqn:E.
  - destruct (heap s !! item) as [[i|l]|]; exact IH.
  - unfold mbind, M_bind, deref.
    destruct (heap s !! item) as [[i|l]|]; try exact IH.
    unfold get_component. rewrite Hc. cbn [negb andb].
    destruct (Z.eqb (component_type c) TYPE_GATE
              && Z.eqb (component_type i) TYPE_QUBIT); [|exact IH].
    cbn [andb]. destruct (within_reach c i); [reflexivity | exact IH].
Qed.

Lemma check_connections_find (component : ref) (c : CircuitComponent)
    (s : SimulationScene) :
  heap s !! component = Some (Component c) ->
  check_connections component s =
  match List.find (candidate s component) (items s) with
  | Some item => attach component item s
  | None => inr (tt, s)
  end.
Proof.
  intros Hc. unfold check_connections, mbind, M_bind, get_component.
  rewrite Hc. destruct (Z.eqb (component_type c) TYPE_QUBIT) eqn:E.
  - apply Z.eqb_eq in E.
    assert (Hnone : forall its, List.find (candidate s component) its = None).
    { induction its as [|a its IH]; [reflexivity|]. cbn [List.find].
      unfold candidate at 1. rewrite Hc, E.
      destruct (heap s !! a) as [[i|l]|]; try exact IH.
      rewrite andb_false_r. exact IH. }
    rewrite Hnone. reflexivity.
  - unfold get_items. apply (scan_find component c); exact Hc.
Qed.

Lemma attach_bound (component item : ref) (c i : CircuitComponent)
    (s : SimulationScene) :
  heap s !! component = Some (Component c) ->
  heap s !! item = Some (Component i) ->
  item ≠ component ->
  attach component item s = inr (tt, bound_scene s component item c i).
Proof.
  intros Hc Hi Hne.
  assert (Hlc : component < length (heap s)) by (eapply lookup_lt_Some; eauto).
  assert (Hli : item < length (heap s)) by (eapply lookup_lt_Some; eauto).
  rewrite (attach_eq component item c i s Hc Hi Hne).
  erewrite add_connection_line_eq; [reflexivity | |]; cbn [heap].
  - apply list_lookup_insert_eq. rewrite length_insert. exact Hli.
  - rewrite list_lookup_insert_ne by exact Hne.
    apply list_lookup_insert_eq. exact Hlc.
Qed.

Lemma candidate_inv (s : SimulationScene) (component item : ref) :
  candidate s component item = true ->
  exists c i,
    heap s !! component = Some (Component c) /\
    heap s !! item = Some (Component i) /\
    item ≠ component /\
    component_type c = TYPE_GATE /\
    component_type i = TYPE_QUBIT /\
    within_reach c i = true.
Proof.
  unfold candidate. intros H.
  destruct (heap s !! component) as [[c|l]|]; try discriminate H.
  destruct (heap s !! item) as [[i|l]|]; try discriminate H.
  apply andb_prop in H as [H Hw]. apply andb_prop in H as [Hn Ht].
  apply andb_prop in Ht as [Htc Hti].
  exists c, i. repeat split; try assumption.
  - intros E. rewrite bool_decide_eq_true_2 in Hn by exact E. discriminate Hn.
  - apply Z.eqb_eq. exact Htc.
  - apply Z.eqb_eq. exact Hti.
Qed.

Lemma bound_heap_component (s : SimulationScene) (component item : ref)
    (c i : CircuitComponent) :
  component < length (heap s) ->
  item ≠ component ->
  heap (bound_scene s component item c i) !! component
  = Some (Component (attached component item c i).1).
Proof.
  intros Hlc Hne. unfold bound_scene. cbn [heap].
  rewrite lookup_app_l by (rewrite !length_insert; exact Hlc).
  rewrite list_lookup_insert_ne by exact Hne.
  apply list_lookup_insert_eq. exact Hlc.
Qed.

Lemma bound_heap_item (s : SimulationScene) (component item : ref)
    (c i : CircuitComponent) :
  item < length (heap s) ->
  heap (bound_scene s component item c i) !! item
  = Some (Component (attached component item c i).2).
Proof.
  intros Hli. unfold bound_scene. cbn [heap].
  rewrite lookup_app_l by (rewrite !length_insert; exact Hli).
  apply list_lookup_insert_eq. rewrite length_insert. exact Hli.
Qed.

Lemma bound_heap_other (s : SimulationScene) (component item : ref)
    (c i : CircuitComponent) (r : ref) :
  r ≠ component -> r ≠ item -> r < length (heap s) ->
  heap (bound_scene s component item c i) !! r = heap s !! r.
Proof.
  intros H1 H2 Hl. unfold bound_scene. cbn [heap].
  rewrite lookup_app_l by (rewrite !length_insert; exact Hl).
  rewrite !list_lookup_insert_ne by (intros E; symmetry in E; contradiction).
  reflexivity.
Qed.

Lemma bound_heap_new (s : SimulationScene) (component item : ref)
    (c i : CircuitComponent) :
  heap (bound_scene s component item c i) !! length (heap s)
  = Some (Line (connection_line (attached component item c i).2
                  (attached component item c i).1 item component)).
Proof.
  unfold bound_scene. cbn [heap].
  rewrite lookup_app_r by (rewrite !length_insert; lia).
  rewrite !length_insert, Nat.sub_diag. reflexivity.
Qed.

Lemma bound_heap_length (s : SimulationScene) (component item : ref)
    (c i : CircuitComponent) :
  length (heap (bound_scene s component item c i)) = S (length (heap s)).
Proof.
  unfold bound_scene. cbn [heap].
  rewrite length_app, !length_insert. simpl. lia.
Qed.

Lemma elem_of_added (r new : ref) (its : list ref) :
  r ∈ added new its <-> r = new \/ r ∈ its.
Proof.
  unfold added. destruct (bool_decide (new ∈ its)) eqn:B.
  - apply bool_decide_eq_true_1 in B. split; [auto|].
    intros [-> | H]; assumption.
  - apply elem_of_cons.
Qed.

Lemma bound_items_elem (s : SimulationScene) (component item : ref)
    (c i : CircuitComponent) (r : ref) :
  r ∈ items (bound_scene s component item c i) ->
  r = length (heap s) \/
  (r ∈ items s /\
   (connected_next i ≠ Some component -> connected_next i ≠ Some r)).
Proof.
  unfold bound_scene. cbn [items]. rewrite !length_insert.
  intros H. apply elem_of_added in H as [H | H]; [left; exact H | right].
  apply elem_of_without in H as [H _]. unfold evicted in H.
  destruct (bool_decide (connected_next i ≠ Some component)) eqn:B.
  - cbn [items] in H. destruct (connected_next i) as [old|].
    + apply list_elem_of_filter in H as [Hr H]. split; [exact H|].
      intros _ E. inversion E. subst. contradiction.
    + split; [exact H | intros _ E; discriminate E].
  - split; [exact H|]. intros Hn.
    rewrite bool_decide_eq_true_2 in B by exact Hn. discriminate B.
Qed.

Lemma find_first (A : Type) (f : A -> bool) (before after : list A) (x : A) :
  f x = true ->
  (forall r, r ∈ before -> f r = false) ->
  List.find f (before ++ x :: after) = Some x.
Proof.
  intros Hx. induction before as [|a before IH]; intros Hb; simpl.
  - rewrite Hx. reflexivity.
  - rewrite (Hb a) by apply list_elem_of_here.
    apply IH. intros r Hr. apply Hb. apply list_elem_of_further. exact Hr.
Qed.

Lemma find_none_all (A : Type) (f : A -> bool) (l : list A) :
  (forall r, r ∈ l -> f r = false) -> List.find f l = None.
Proof.
  induction l as [|a l IH]; intros H; simpl; [reflexivity|].
  rewrite (H a) by apply list_elem_of_here.
  apply IH. intros r Hr. apply H. apply list_elem_of_further. exact Hr.
Qed.

Lemma check_connections_first (s : SimulationScene) (component item : ref)
    (c i : CircuitComponent) :
  heap s !! component = Some (Component c) ->
  heap s !! item = Some (Component i) ->
  first_candidate s component item ->
  item ≠ component /\
  component_type c = TYPE_GATE /\
  component_type i = TYPE_QUBIT /\
  check_connections component s
  = inr (tt, bound_scene s component item c i).
Proof.
  intros Hc Hi (before & after & Hits & Hcand & Hbefore).
  rewrite (check_connections_find component c s Hc), Hits.
  rewrite (find_first _ _ before after item Hcand Hbefore).
  apply candidate_inv in Hcand as (c0 & i0 & Hc0 & Hi0 & Hne & Htc & Hti & _).
  rewrite Hc in Hc0. rewrite Hi in Hi0.
  inversion Hc0; subst c0. inversion Hi0; subst i0.
  repeat split; try assumption.
  apply attach_bound; assumption.
Qed.

Lemma check_connections_none (s : SimulationScene) (component : ref)
    (c : CircuitComponent) :
  heap s !! component = Some (Component c) ->
  (forall r, r ∈ items s -> candidate s component r = false) ->
  check_connections component s = inr (tt, s).
Proof.
  intros Hc Hnone. rewrite (check_connections_find component c s Hc).
  rewrite find_none_all by exact Hnone. reflexivity.
Qed.

Lemma within_reach_spec (c i : CircuitComponent) :
  within_reach c i = true <->
  (Qabs (xp (pos c) - xp (pos i)) + Qabs (yp (pos c) - yp (pos i))
   <= 8 * inject_Z (grid_size c))%Q.
Proof.
  unfold within_reach, manhattanLength, QPointF_sub. cbn [xp yp].
  rewrite Qle_bool_iff, inject_Z_mult.
  change (inject_Z 8) with 8%Q.
  split; intros H; lra.
Qed.

(** ** The links along a session *)

Lemma links_ok_set_pos (s : SimulationScene) (r : ref) (c : CircuitComponent)
    (p : QPointF) :
  links_ok s ->
  heap s !! r = Some (Component c) ->
  links_ok {| heap := <[r := Component (set_pos p c)]> (heap s);
              items := items s;
              calls := calls s |}.
Proof.
  intros Hok Hr.
  assert (Hlr : r < length (heap s)) by (eapply lookup_lt_Some; eauto).
  assert (Hfwd : forall q x, heap s !! q = Some (Component x) ->
            exists x', <[r := Component (set_pos p c)]> (heap s) !! q
                       = Some (Component x') /\
                       component_type x' = component_type x /\
                       connected_prev x' = connected_prev x /\
                       connected_next x' = connected_next x).
  { intros q x Hq. destruct (decide (q = r)) as [->|Hn].
    - rewrite Hr in Hq. inversion Hq; subst x.
      exists (set_pos p c). rewrite list_lookup_insert_eq by exact Hlr. auto.
    - exists x. rewrite list_lookup_insert_ne by (intros E; apply Hn; symmetry; exact E).
      auto. }
  assert (Hbwd : forall q x', <[r := Component (set_pos p c)]> (heap s) !! q
                       = Some (Component x') ->
            exists x, heap s !! q = Some (Component x) /\
                       component_type x' = component_type x /\
                       connected_prev x' = connected_prev x /\
                       connected_next x' = connected_next x).
  { intros q x' Hq. destruct (decide (q = r)) as [->|Hn].
    - rewrite list_lookup_insert_eq in Hq by exact Hlr. inversion Hq; subst x'.
      exists c. auto.
    - rewrite list_lookup_insert_ne in Hq by (intros E; apply Hn; symmetry; exact E).
      exists x'. auto. }
  intros r0 c0 H0. cbn [heap items] in *.
  destruct (Hbwd r0 c0 H0) as (x & Hx & Ht & Hp & Hn).
  destruct (Hok r0 x Hx) as [Hprev Hnext]. split.
  - intros q Hq. rewrite Hp in Hq. destruct (Hprev q Hq) as (Hty & i & Hiq & Hti & Hback).
    split; [congruence|].
    destruct (Hfwd q i Hiq) as (i' & Hi' & Hti' & _ & Hni').
    exists i'. split; [exact Hi'|]. split; [congruence|].
    intros Hin. rewrite Hni'. auto.
  - intros g Hg. rewrite Hn in Hg. destruct (Hnext g Hg) as (Hty & c' & Hc' & Htc' & Hs).
    split; [congruence|].
    destruct (Hfwd g c' Hc') as (c'' & Hc'' & Htc'' & Hpc'' & _).
    exists c''. split; [exact Hc''|]. split; [congruence|]. rewrite Hpc''. exact Hs.
Qed.

Lemma links_ok_bound (s : SimulationScene) (component item : ref)
    (c i : CircuitComponent) :
  links_ok s ->
  heap s !! component = Some (Component c) ->
  heap s !! item = Some (Component i) ->
  component_type c = TYPE_GATE ->
  component_type i = TYPE_QUBIT ->
  links_ok (bound_scene s component item c i).
Proof.
  intros Hok Hc Hi Htc Hti.
  assert (Hne : item ≠ component).
  { intros E. subst item. rewrite Hc in Hi. inversion Hi; subst i.
    rewrite Htc in Hti. discriminate Hti. }
  assert (Hlc : component < length (heap s)) by (eapply lookup_lt_Some; eauto).
  assert (Hli : item < length (heap s)) by (eapply lookup_lt_Some; eauto).
  pose proof (bound_heap_component s component item c i Hlc Hne) as HC.
  pose proof (bound_heap_item s component item c i Hli) as HI.
  pose proof (bound_heap_other s component item c i) as HO.
  pose proof (bound_heap_new s component item c i) as HN.
  pose proof (bound_heap_length s component item c i) as HL.
  pose proof (bound_items_elem s component item c i) as HE.
  set (s' := bound_scene s component item c i) in *.
  (* every old component is still there, with its type *)
  assert (Hfwd : forall q x, heap s !! q = Some (Component x) ->
            q ≠ component -> q ≠ item -> heap s' !! q = Some (Component x)).
  { intros q x Hq H1 H2. rewrite HO; [exact Hq | exact H1 | exact H2 |].
    eapply lookup_lt_Some; eauto. }
  assert (Hci : connected_prev i = None).
  { destruct (connected_prev i) as [q|] eqn:E; [|reflexivity].
    destruct (Hok item i Hi) as [Hprev _]. destruct (Hprev q E) as [Hty _].
    rewrite Hti in Hty. discriminate Hty. }
  assert (Hcn : connected_next c = None).
  { destruct (connected_next c) as [g|] eqn:E; [|reflexivity].
    destruct (Hok component c Hc) as [_ Hnext]. destruct (Hnext g E) as [Hty _].
    rewrite Htc in Hty. discriminate Hty. }
  intros r0 c0 H0.
  assert (Hl0 : r0 < length (heap s)).
  { pose proof (lookup_lt_Some _ _ _ H0) as Hlt. rewrite HL in Hlt.
    destruct (decide (r0 = length (heap s))) as [->|]; [|lia].
    rewrite HN in H0. discriminate H0. }
  destruct (decide (r0 = component)) as [->|Hn1]; [|destruct (decide (r0 = item)) as [->|Hn2]].
  - (* the moved gate *)
    rewrite HC in H0. inversion H0; subst c0. cbn. split.
    + intros q Hq. inversion Hq; subst q. split; [exact Htc|].
      exists (attached component item c i).2. split; [exact HI|]. cbn. auto.
    + intros g Hg. rewrite Hcn in Hg. discriminate Hg.
  - (* the qubit *)
    rewrite HI in H0. inversion H0; subst c0. cbn. split.
    + intros q Hq. rewrite Hci in Hq. discriminate Hq.
    + intros g Hg. inversion Hg; subst g. split; [exact Hti|].
      exists (attached component item c i).1. split; [exact HC|]. cbn. eauto.
  - (* any other component *)
    rewrite HO in H0 by assumption.
    destruct (Hok r0 c0 H0) as [Hprev Hnext]. split.
    + intros q Hq. destruct (Hprev q Hq) as (Hty & x & Hx & Htx & Hback).
      split; [exact Hty|].
      destruct (decide (q = component)) as [->|Hq1].
      { rewrite Hc in Hx. inversion Hx; subst x. rewrite Htc in Htx. discriminate Htx. }
      destruct (decide (q = item)) as [->|Hq2].
      * rewrite Hi in Hx. inversion Hx; subst x.
        exists (attached component item c i).2. split; [exact HI|]. split; [exact Hti|].
        intros Hin. exfalso.
        destruct (HE r0 Hin) as [E | [Hin0 Hev]]; [lia|].
        specialize (Hback Hin0).
        apply Hev; [|exact Hback]. rewrite Hback. intros E. inversion E. contradiction.
      * exists x. split; [apply Hfwd; assumption|]. split; [exact Htx|].
        intros Hin. apply Hback.
        destruct (HE r0 Hin) as [E | [Hin0 _]]; [lia | exact Hin0].
    + intros g Hg. destruct (Hnext g Hg) as (Hty & x & Hx & Htx & Hs).
      split; [exact Hty|].
      destruct (decide (g = component)) as [->|Hg1].
      { exists (attached component item c i).1. split; [exact HC|]. cbn. eauto. }
      destruct (decide (g = item)) as [->|Hg2].
      { rewrite Hi in Hx. inversion Hx; subst x. rewrite Hti in Htx. discriminate Htx. }
      exists x. split; [apply Hfwd; assumption|]. auto.
Qed.

Lemma check_connections_cases (component : ref) (c : CircuitComponent)
    (s : SimulationScene) :
  heap s !! component = Some (Component c) ->
  check_connections component s = inr (tt, s) \/
  exists item i,
    item ∈ items s /\
    heap s !! item = Some (Component i) /\
    component_type c = TYPE_GATE /\
    component_type i = TYPE_QUBIT /\
    check_connections component s
    = inr (tt, bound_scene s component item c i).
Proof.
  intros Hc. rewrite (check_connections_find component c s Hc).
  destruct (List.find (candidate s component) (items s)) as [item|] eqn:F;
    [right | left; reflexivity].
  apply find_some in F as [Hin Hcand].
  apply candidate_inv in Hcand as (c0 & i & Hc0 & Hi & Hne & Htc & Hti & _).
  rewrite Hc in Hc0. inversion Hc0; subst c0.
  exists item, i. split; [apply list_elem_of_In; exact Hin|].
  repeat split; try assumption.
  apply attach_bound; assumption.
Qed.

Lemma links_ok_check_connections (component : ref) (s s' : SimulationScene) :
  links_ok s ->
  check_connections component s = inr (tt, s') ->
  links_ok s'.
Proof.
  intros Hok Hrun.
  destruct (heap s !! component) as [[c|l]|] eqn:Hc;
    try (unfold check_connections, mbind, M_bind, get_component in Hrun;
         rewrite Hc in Hrun; discriminate Hrun).
  destruct (check_connections_cases component c s Hc)
    as [E | (item & i & _ & Hi & Htc & Hti & E)];
    rewrite E in Hrun; inversion Hrun; subst s'.
  - exact Hok.
  - apply links_ok_bound; assumption.
Qed.

Lemma links_ok_drag_release (self : ref) (p : QPointF)
    (s s' : SimulationScene) :
  links_ok s ->
  (drag_to self p;; mouseReleaseEvent self) s = inr (tt, s') ->
  links_ok s'.
Proof.
  intros Hok Hrun.
  unfold drag_to, mbind, M_bind, modify_component in Hrun.
  destruct (heap s !! self) as [[c|l]|] eqn:Hc; try discriminate Hrun.
  assert (Hl : self < length (heap s)) by (eapply lookup_lt_Some; eauto).
  pose proof (links_ok_set_pos s self c p Hok Hc) as Hok1.
  set (s1 := {| heap := <[self:=Component (set_pos p c)]> (heap s);
                items := items s; calls := calls s |}) in *.
  assert (Hc1 : heap s1 !! self = Some (Component (set_pos p c)))
    by (apply list_lookup_insert_eq; exact Hl).
  unfold mouseReleaseEvent, mbind, M_bind, get_component in Hrun.
  rewrite Hc1 in Hrun.
  destruct (Z.eqb (grid_size (set_pos p c)) 0); [discriminate Hrun|].
  unfold modify_component in Hrun. rewrite Hc1 in Hrun.
  pose proof (links_ok_set_pos s1 self (set_pos p c)
                (snap_nearest (pos (set_pos p c)) (grid_size (set_pos p c)))
                Hok1 Hc1) as Hok2.
  unfold in_scene in Hrun. cbn [items] in Hrun.
  destruct (bool_decide (self ∈ items s1)).
  - eapply links_ok_check_connections; [exact Hok2 | exact Hrun].
  - inversion Hrun; subst s'. exact Hok2.
Qed.

Lemma links_ok_new_component (s : SimulationScene) (item : CircuitComponent) :
  connected_prev item = None ->
  connected_next item = None ->
  links_ok s ->
  links_ok {| heap := heap s ++ [Component item];
              items := added (length (heap s)) (items s);
              calls := calls s ++ [AddItem (length (heap s))] |}.
Proof.
  intros Hp Hn Hok r c Hr. cbn [heap items] in *.
  destruct (decide (r < length (heap s))) as [Hl|Hl].
  - rewrite lookup_app_l in Hr by exact Hl.
    destruct (Hok r c Hr) as [Hprev Hnext]. split.
    + intros q Hq. destruct (Hprev q Hq) as (Hty & i & Hi & Hti & Hback).
      split; [exact Hty|]. exists i.
      rewrite lookup_app_l by (eapply lookup_lt_Some; eauto).
      split; [exact Hi|]. split; [exact Hti|].
      intros Hin. apply Hback. apply elem_of_added in Hin as [E | Hin]; [lia | exact Hin].
    + intros g Hg. destruct (Hnext g Hg) as (Hty & c' & Hc' & Htc' & Hs).
      split; [exact Hty|]. exists c'.
      rewrite lookup_app_l by (eapply lookup_lt_Some; eauto). auto.
  - rewrite lookup_app_r in Hr by lia.
    destruct (r - length (heap s)) as [|n]; [|destruct n; discriminate Hr].
    inversion Hr; subst c. split; intros x Hx; congruence.
Qed.

Section Invariant.

Variable unicode_numeric : N -> bool.
Variable py_int : Py.str -> option Z.
Variable load_pixmap : Py.str -> QPixmap.

Lemma dropped_component_fresh (scale0 : Z) (text : Py.str) (p : QPointF)
    (item : CircuitComponent) :
  dropped_component unicode_numeric py_int load_pixmap scale0 text p = inr item ->
  connected_prev item = None /\ connected_next item = None /\
  pos item = snap_floor p scale0 /\ grid_size item = scale0.
Proof.
  unfold dropped_component, mbind, result_bind. intros H.
  destruct (parse_component_type _ _ _) as [e|ty]; [discriminate H|].
  destruct (index _ 1) as [e|name]; [discriminate H|].
  destruct (Z.eqb scale0 0); [discriminate H|].
  inversion H; subst item. auto.
Qed.

Lemma links_ok_step (w w' : SimulationWindow) :
  step unicode_numeric py_int load_pixmap w w' ->
  links_ok (scene w) -> links_ok (scene w').
Proof.
  intros Hstep Hok. destruct Hstep as [w w' event Hdrop | w self p scene' Hin Hrun].
  - unfold dropEvent in Hdrop. destruct (mime_text event) as [text|].
    + unfold mbind at 1, result_bind in Hdrop.
      destruct (dropped_component _ _ _ _ _ _) as [e|item] eqn:Hitem;
        [discriminate Hdrop|].
      apply dropped_component_fresh in Hitem as (Hp & Hn & _).
      cbn in Hdrop. inversion Hdrop; subst w'. cbn [scene].
      apply links_ok_new_component; assumption.
    + inversion Hdrop; subst w'. exact Hok.
  - cbn [scene]. eapply links_ok_drag_release; eassumption.
Qed.

Lemma links_ok_reachable (w : SimulationWindow) :
  reachable unicode_numeric py_int load_pixmap w -> links_ok (scene w).
Proof.
  unfold reachable. revert w.
  apply (rtc_ind_r (fun w => links_ok (scene w))).
  - intros r c Hr. discriminate Hr.
  - intros y z _ Hstep IH. eapply links_ok_step; eassumption.
Qed.

End Invariant.

(** ** Qt's comparison on pixel points *)

Lemma pixel_coord_spec (v : Q) :
  pixel_coord v = true ->
  exists z : Z, (v == inject_Z z)%Q /\ (Z.abs z < 1000000000000)%Z.
Proof.
  unfold pixel_coord. intros H. apply andb_prop in H as [Hd Hn].
  apply Pos.eqb_eq in Hd. apply Z.ltb_lt in Hn.
  exists (Qnum (Qred v)). split; [|exact Hn].
  transitivity (Qred v); [symmetry; apply Qred_correct|].
  destruct (Qred v) as [n d]. cbn [Qden Qnum] in *. subst d. reflexivity.
Qed.

Lemma qMin_le_l (a b : Q) : (qMin a b <= a)%Q.
Proof.
  unfold qMin. destruct (Qle_bool a b) eqn:E; [apply Qle_refl|].
  destruct (Qlt_le_dec b a) as [L|L]; [apply Qlt_le_weak; exact L|].
  apply Qle_bool_iff in L. congruence.
Qed.

(** Two integers that Qt finds equal are equal, when the first is of
    magnitude below 10^12. *)
Lemma fuzzy_coord_exact (a b : Q) (x z : Z) :
  (a == inject_Z x)%Q -> (b == inject_Z z)%Q ->
  (Z.abs x < 1000000000000)%Z ->
  fuzzy_coord a b = true -> x = z.
Proof.
  intros Ha Hb Hx H. unfold fuzzy_coord in H.
  assert (Hd : (Qabs (a - b) == inject_Z (Z.abs (x - z)))%Q).
  { rewrite Ha, Hb. unfold Qminus.
    rewrite <- inject_Z_opp, <- inject_Z_plus. reflexivity. }
  destruct (Z.eq_dec x z) as [E|N]; [exact E | exfalso].
  assert (H1 : (1 <= Z.abs (x - z))%Z) by lia.
  destruct (Qeq_bool a 0 || Qeq_bool b 0).
  - unfold qFuzzyIsNull in H. apply Qle_bool_imp_le in H. rewrite Hd in H.
    rewrite Zle_Qle in H1. change (inject_Z 1) with 1%Q in H1.
    assert (H2 : (1 # 1000000000000 < 1)%Q) by reflexivity.
    lra.
  - unfold qFuzzyCompare in H. apply Qle_bool_imp_le in H. rewrite Hd in H.
    pose proof (qMin_le_l (Qabs a) (Qabs b)) as Hmin.
    assert (Ha' : (Qabs a <= inject_Z (Z.abs x))%Q)
      by (rewrite Ha; apply Qle_refl).
    rewrite <- inject_Z_mult in H.
    assert (H2 : (inject_Z (Z.abs (x - z) * 1000000000000)
                  <= inject_Z (Z.abs x))%Q).
    { eapply Qle_trans; [exact H|].
      eapply Qle_trans; [exact Hmin | exact Ha']. }
    rewrite <- Zle_Qle in H2. lia.
Qed.

Lemma QPointF_eq_exact (a b : QPointF) :
  pixel_point a = true ->
  (exists x y : Z, (xp b == inject_Z x)%Q /\ (yp b == inject_Z y)%Q) ->
  QPointF_eq a b = true ->
  (xp a == xp b)%Q /\ (yp a == yp b)%Q.
Proof.
  unfold pixel_point, QPointF_eq. intros Ha (x & y & Hx & Hy) H.
  apply andb_prop in Ha as [Hax Hay]. apply andb_prop in H as [Ex Ey].
  apply pixel_coord_spec in Hax as (ax & Hax & Bx).
  apply pixel_coord_spec in Hay as (ay & Hay & By).
  pose proof (fuzzy_coord_exact _ _ ax x Hax Hx Bx Ex) as E1.
  pose proof (fuzzy_coord_exact _ _ ay y Hay Hy By Ey) as E2.
  subst x y. split.
  - rewrite Hax, Hx. reflexivity.
  - rewrite Hay, Hy. reflexivity.
Qed.

(** From a pixel point to a point with integer coordinates, [setPos] leaves
    the component where the write [set_pos] puts it. *)
Lemma setPos_exact (p : QPointF) (c : CircuitComponent) :
  pixel_point (pos c) = true ->
  (exists x y : Z, (xp p == inject_Z x)%Q /\ (yp p == inject_Z y)%Q) ->
  exists q,
    setPos p c = set_pos q c /\ (xp q == xp p)%Q /\ (yp q == yp p)%Q.
Proof.
  intros Hc Hp. unfold setPos.
  destruct (QPointF_eq (pos c) p) eqn:E.
  - exists (pos c). split; [destruct c; reflexivity|].
    apply QPointF_eq_exact; assumption.
  - exists p. split; [reflexivity|]. split; reflexivity.
Qed.

(** Off the pixel points the move can be skipped: a component at
    (24 + 2^-40, 48) is not moved to (24, 48). *)
Lemma setPos_skips (c : CircuitComponent) :
  pos c = QPoint (24 + (1 # 1099511627776)) 48 ->
  setPos (QPoint 24 48) c = c.
Proof. intros H. unfold setPos. rewrite H. reflexivity. Qed.

(** Line 52: the release of a component dragged to a pixel point. *)
Lemma release_setPos_exact (p : QPointF) (c : CircuitComponent) :
  pixel_point p = true ->
  exists q,
    setPos (snap_nearest p (grid_size c)) (set_pos p c) = set_pos q c /\
    (xp q == xp (snap_nearest p (grid_size c)))%Q /\
    (yp q == yp (snap_nearest p (grid_size c)))%Q.
Proof.
  intros Hp.
  destruct (setPos_exact (snap_nearest p (grid_size c)) (set_pos p c))
    as (q & E & Hx & Hy).
  - exact Hp.
  - unfold snap_nearest. cbn [xp yp]. eexists. eexists.
    split; reflexivity.
  - exists q. split; [|split; assumption].
    rewrite E. reflexivity.
Qed.

(** Line 154: the alignment of a gate at a pixel point to a qubit at a
    pixel point. *)
Lemma attach_setPos_exact (c i : CircuitComponent) :
  pixel_point (pos c) = true ->
  pixel_point (pos i) = true ->
  exists q,
    setPos (QPoint (xp (pos i) + inject_Z (grid_size c * 6))%Q (yp (pos i))) c
    = set_pos q c /\
    (xp q == xp (pos i) + inject_Z (grid_size c * 6))%Q /\
    (yp q == yp (pos i))%Q.
Proof.
  intros Hc Hi.
  apply (setPos_exact
           (QPoint (xp (pos i) + inject_Z (grid_size c * 6))%Q (yp (pos i)))
           c Hc).
  cbn [xp yp].
  unfold pixel_point in Hi. apply andb_prop in Hi as [Hx Hy].
  apply pixel_coord_spec in Hx as (x & Hx & _).
  apply pixel_coord_spec in Hy as (y & Hy & _).
  exists (x + grid_size c * 6)%Z, y. split; [|exact Hy].
  rewrite Hx, inject_Z_plus. reflexivity.
Qed.

(** * Specified properties *)

(** ** Snapping *)

(** C8.  For every raw position [p] and cell size [g > 0], each coordinate
    of the drop-time snap is at most the raw coordinate, strictly greater
    than the raw coordinate minus [g], and a multiple of [g]; and this snap
    is the position that a drop gives to the new component. *)
Theorem snap_floor_within_cell (p : QPointF) (g : Z) :
  (0 < g)%Z ->
  ((xp (snap_floor p g) <= xp p)%Q /\
   (xp p - inject_Z g < xp (snap_floor p g))%Q /\
   (exists k : Z, (xp (snap_floor p g) == inject_Z (k * g))%Q)) /\
  ((yp (snap_floor p g) <= yp p)%Q /\
   (yp p - inject_Z g < yp (snap_floor p g))%Q /\
   (exists k : Z, (yp (snap_floor p g) == inject_Z (k * g))%Q)) /\
  (forall numeric int pixmaps text c,
     dropped_component numeric int pixmaps g text p = inr c ->
     pos c = snap_floor p g).
Proof.
  intros Hg. unfold snap_floor, QPointF_sub. cbn [xp yp].
  destruct (snap_floor_coord (xp p) g Hg) as (Hx1 & Hx2 & Hx3).
  destruct (snap_floor_coord (yp p) g Hg) as (Hy1 & Hy2 & Hy3).
  split; [|split].
  - split; [exact Hx1|]. split; [exact Hx2|]. eexists; exact Hx3.
  - split; [exact Hy1|]. split; [exact Hy2|]. eexists; exact Hy3.
  - intros numeric int pixmaps text c Hdrop.
    apply dropped_component_fresh in Hdrop as (_ & _ & Hpos & _). exact Hpos.
Qed.

(** The drop of scenario 1: raw position (13, 5), cell size 24. *)
Lemma snap_floor_scenario_1 :
  (0 < 24)%Z /\
  snap_floor (Demo.at_ 13 5) 24 = Demo.at_ 0 0 /\
  Demo.position_of 0 (Demo.session [Demo.drop "0,qubit-0" 13 5])
  = Some (Demo.at_ 0 0) /\
  ((xp (snap_floor (Demo.at_ 13 5) 24) <= 13)%Q /\
   (13 - 24 < xp (snap_floor (Demo.at_ 13 5) 24))%Q) /\
  ((yp (snap_floor (Demo.at_ 13 5) 24) <= 5)%Q /\
   (5 - 24 < yp (snap_floor (Demo.at_ 13 5) 24))%Q).
Proof.
  assert (Hg : (0 < 24)%Z) by lia.
  destruct (snap_floor_within_cell (Demo.at_ 13 5) 24 Hg)
    as ((Hx1 & Hx2 & _) & (Hy1 & Hy2 & _) & _).
  split; [exact Hg|]. split; [reflexivity|]. split; [reflexivity|].
  split; split; assumption.
Defined.

(** C9.  The drag-release snap is idempotent for every position [p] and
    cell size [g > 0]; each of its coordinates is a multiple of [g] at most
    half a cell away from the raw coordinate. *)
Theorem snap_nearest_idempotent (p : QPointF) (g : Z) :
  (0 < g)%Z ->
  snap_nearest (snap_nearest p g) g = snap_nearest p g /\
  (exists kx ky : Z,
     snap_nearest p g = QPoint (inject_Z (kx * g)) (inject_Z (ky * g))) /\
  (Qabs (xp p - xp (snap_nearest p g)) <= inject_Z g / 2)%Q /\
  (Qabs (yp p - yp (snap_nearest p g)) <= inject_Z g / 2)%Q.
Proof.
  intros Hg. unfold snap_nearest. cbn [xp yp]. split; [|split; [|split]].
  - rewrite !snap_nearest_coord_idem by exact Hg. reflexivity.
  - exists (Py.round (xp p / inject_Z g)), (Py.round (yp p / inject_Z g)).
    reflexivity.
  - apply snap_nearest_coord_near. exact Hg.
  - apply snap_nearest_coord_near. exact Hg.
Qed.

(** A position off the grid and a position halfway between two cells. *)
Lemma snap_nearest_example :
  (0 < 24)%Z /\
  snap_nearest (Demo.at_ 100 37) 24 = Demo.at_ 96 48 /\
  snap_nearest (Demo.at_ 12 36) 24 = Demo.at_ 0 48 /\
  snap_nearest (snap_nearest (Demo.at_ 100 37) 24) 24
  = snap_nearest (Demo.at_ 100 37) 24.
Proof.
  split; [lia|]. split; [reflexivity|]. split; [reflexivity|].
  apply (snap_nearest_idempotent (Demo.at_ 100 37) 24). lia.
Defined.

(** ** The drop payload *)

Lemma split_cons (sep : N) (s : Py.str) :
  exists first rest, Py.split sep s = first :: rest.
Proof.
  destruct s as [|ch s]; simpl; [eauto|].
  destruct (N.eqb ch sep); [eauto|].
  destruct (Py.split sep s); eauto.
Qed.

Section Payload.

Variable unicode_numeric : N -> bool.
Variable py_int : Py.str -> option Z.
Variable load_pixmap : Py.str -> QPixmap.

(** C10.  For every payload whose first comma-separated field is not a
    numeric string, the kind that line 231 computes is the qubit kind, every
    component that the drop creates is a qubit, and the drop does create one
    whenever the payload has a second field (the name) and the cell size is
    not zero. *)
Theorem drop_kind_defaults_to_qubit (text : Py.str) :
  Py.isnumeric unicode_numeric (hd [] (Py.split Py.comma text)) = false ->
  parse_component_type unicode_numeric py_int (Py.split Py.comma text)
  = inr TYPE_QUBIT /\
  forall (w : SimulationWindow) (p : QPointF),
    (forall w',
       dropEvent unicode_numeric py_int load_pixmap w
         {| mime_text := Some text; scene_pos := p |} = inr w' ->
       exists c,
         heap (scene w') = heap (scene w) ++ [Component c] /\
         component_type c = TYPE_QUBIT) /\
    (scale w ≠ 0%Z ->
     (exists name rest, tl (Py.split Py.comma text) = name :: rest) ->
     exists w',
       dropEvent unicode_numeric py_int load_pixmap w
         {| mime_text := Some text; scene_pos := p |} = inr w').
Proof.
  intros Hnum.
  destruct (split_cons Py.comma text) as (first & fields & Hsplit).
  rewrite Hsplit in Hnum |- *. cbn [hd tl] in *.
  assert (Hparse : parse_component_type unicode_numeric py_int (first :: fields)
                   = inr TYPE_QUBIT).
  { unfold parse_component_type, index. cbn. rewrite Hnum. reflexivity. }
  split; [exact Hparse|]. intros w p. split.
  - intros w' Hdrop. unfold dropEvent in Hdrop. cbn [mime_text scene_pos] in Hdrop.
    unfold dropped_component in Hdrop. rewrite Hsplit, Hparse in Hdrop.
    cbn in Hdrop. destruct (index (first :: fields) 1) as [e|name]; cbn in Hdrop;
      [discriminate Hdrop|].
    destruct (Z.eqb (scale w) 0); cbn in Hdrop; [discriminate Hdrop|].
    inversion Hdrop; subst w'. cbn. eexists. split; reflexivity.
  - intros Hscale (name & rest & Hfields). subst fields.
    unfold dropEvent. cbn [mime_text scene_pos].
    unfold dropped_component. rewrite Hsplit, Hparse. cbn.
    destruct (Z.eqb_spec (scale w) 0) as [E|_]; [contradiction|].
    cbn. eexists. reflexivity.
Qed.

End Payload.

(** A payload with no kind tag, and one whose tag is a word. *)
Lemma drop_kind_defaults_example :
  Py.isnumeric Demo.numeric
    (hd [] (Py.split Py.comma (Py.of_string ",qubit-0"))) = false /\
  component_type <$>
    Demo.component_of 0 (Demo.session [Demo.drop ",qubit-0" 13 5])
  = Some TYPE_QUBIT /\
  component_type <$>
    Demo.component_of 0 (Demo.session [Demo.drop "gate,Pauli-X" 13 5])
  = Some TYPE_QUBIT /\
  parse_component_type Demo.numeric Demo.int
    (Py.split Py.comma (Py.of_string ",qubit-0")) = inr TYPE_QUBIT.
Proof.
  split; [reflexivity|]. split; [reflexivity|]. split; [reflexivity|].
  apply (drop_kind_defaults_to_qubit Demo.numeric Demo.int Demo.pixmaps
           (Py.of_string ",qubit-0")).
  reflexivity.
Defined.

(** A payload without a comma has no name field: line 233 raises
    IndexError and nothing is created. *)
Lemma drop_without_name :
  Demo.session [Demo.drop "gate" 13 5] = inl IndexError.
Proof. reflexivity. Qed.

(** A numeric tag is read as a number, whatever it is; a character that is
    numeric without being a digit makes [int] raise. *)
Lemma drop_numeric_kinds :
  component_type <$>
    Demo.component_of 0 (Demo.session [Demo.drop "1,Pauli-X" 13 5])
  = Some TYPE_GATE /\
  component_type <$>
    Demo.component_of 0 (Demo.session [Demo.drop "7,Pauli-X" 13 5])
  = Some 7%Z /\
  dropEvent Demo.numeric Demo.int Demo.pixmaps init_window
    {| mime_text := Some (178%N :: Py.of_string ",Pauli-X");
       scene_pos := Demo.at_ 13 5 |}
  = inl ValueError.
Proof. repeat split. Qed.

(** ** Connection resolution *)

Lemma candidate_spec (s : SimulationScene) (component item : ref)
    (c : CircuitComponent) :
  heap s !! component = Some (Component c) ->
  component_type c = TYPE_GATE ->
  candidate s component item = true <->
  exists i,
    item ≠ component /\
    heap s !! item = Some (Component i) /\
    component_type i = TYPE_QUBIT /\
    (Qabs (xp (pos c) - xp (pos i)) + Qabs (yp (pos c) - yp (pos i))
     <= 8 * inject_Z (grid_size c))%Q.
Proof.
  intros Hc Htc. split.
  - intros H. apply candidate_inv in H as (c0 & i & Hc0 & Hi & Hne & _ & Hti & Hw).
    rewrite Hc in Hc0. inversion Hc0; subst c0.
    exists i. repeat split; try assumption. apply within_reach_spec. exact Hw.
  - intros (i & Hne & Hi & Hti & Hd). unfold candidate. rewrite Hc, Hi.
    rewrite bool_decide_eq_false_2 by exact Hne.
    rewrite Htc, Hti. cbn [negb andb Z.eqb TYPE_GATE TYPE_QUBIT].
    apply within_reach_spec. exact Hd.
Qed.

(** C5.  For a moved gate [component], an item of the scene is a candidate
    exactly when it is a qubit, other than the gate, whose Manhattan
    distance from the gate is at most eight cells.  The gate is bound to the
    first candidate in the order of [items()]: the two links are set, and no
    other object of the store is touched.  With no candidate, nothing
    changes. *)
Theorem check_connections_binds_first_candidate (s : SimulationScene)
    (component : ref) (c : CircuitComponent) :
  heap s !! component = Some (Component c) ->
  component_type c = TYPE_GATE ->
  (forall item,
     candidate s component item = true <->
     exists i,
       item ≠ component /\
       heap s !! item = Some (Component i) /\
       component_type i = TYPE_QUBIT /\
       (Qabs (xp (pos c) - xp (pos i)) + Qabs (yp (pos c) - yp (pos i))
        <= 8 * inject_Z (grid_size c))%Q) /\
  (forall item,
     first_candidate s component item ->
     exists s' c' i',
       check_connections component s = inr (tt, s') /\
       heap s' !! component = Some (Component c') /\
       connected_prev c' = Some item /\
       heap s' !! item = Some (Component i') /\
       connected_next i' = Some component /\
       forall r, r ≠ component -> r ≠ item -> r < length (heap s) ->
                 heap s' !! r = heap s !! r) /\
  ((forall item, item ∈ items s -> candidate s component item = false) ->
   check_connections component s = inr (tt, s)).
Proof.
  intros Hc Htc. split; [|split].
  - intros item. apply candidate_spec; assumption.
  - intros item Hfirst.
    assert (Hi : exists i, heap s !! item = Some (Component i)).
    { destruct Hfirst as (_ & _ & _ & Hcand & _).
      apply candidate_inv in Hcand as (_ & i & _ & Hi & _). eauto. }
    destruct Hi as (i & Hi).
    destruct (check_connections_first s component item c i Hc Hi Hfirst)
      as (Hne & _ & _ & Hrun).
    exists (bound_scene s component item c i),
           (attached component item c i).1, (attached component item c i).2.
    split; [exact Hrun|].
    split; [apply bound_heap_component;
            [eapply lookup_lt_Some; eauto | exact Hne]|].
    split; [reflexivity|].
    split; [apply bound_heap_item; eapply lookup_lt_Some; eauto|].
    split; [reflexivity|].
    intros r H1 H2 Hl. apply bound_heap_other; assumption.
  - apply (check_connections_none s component c Hc).
Qed.

(** Of two qubits within reach, the one that [items()] lists first is
    bound: here the more recently dropped one, object 1. *)
Lemma first_candidate_example :
  exists c,
    heap (Demo.scene_of (Demo.session Demo.two_in_reach)) !! 2
    = Some (Component c) /\
    component_type c = TYPE_GATE /\
    candidate (Demo.scene_of (Demo.session Demo.two_in_reach)) 2 0 = true /\
    first_candidate (Demo.scene_of (Demo.session Demo.two_in_reach)) 2 1 /\
    exists s' c' i',
      check_connections 2 (Demo.scene_of (Demo.session Demo.two_in_reach))
      = inr (tt, s') /\
      heap s' !! 2 = Some (Component c') /\
      connected_prev c' = Some 1 /\
      heap s' !! 1 = Some (Component i') /\
      connected_next i' = Some 2 /\
      forall r, r ≠ 2 -> r ≠ 1 ->
        r < length (heap (Demo.scene_of (Demo.session Demo.two_in_reach))) ->
        heap s' !! r
        = heap (Demo.scene_of (Demo.session Demo.two_in_reach)) !! r.
Proof.
  eexists. split; [reflexivity|]. split; [reflexivity|].
  split; [reflexivity|].
  assert (Hfirst : first_candidate
                     (Demo.scene_of (Demo.session Demo.two_in_reach)) 2 1).
  { exists [2], [0]. split; [reflexivity|]. split; [reflexivity|].
    intros r Hr. apply list_elem_of_singleton in Hr. subst r. reflexivity. }
  split; [exact Hfirst|].
  eapply (check_connections_binds_first_candidate
            (Demo.scene_of (Demo.session Demo.two_in_reach)) 2);
    [reflexivity | reflexivity | exact Hfirst].
Defined.

(** C6.  Whenever connection resolution binds [component] to the qubit
    [item], the component ends at the qubit's position moved six cells to
    the right, whatever position the drag had given it.  The positions of
    the two components are pixel points, so that the [setPos] of line 154
    does move the component ([attach_setPos_exact]). *)
Theorem check_connections_aligns_gate (s : SimulationScene)
    (component item : ref) (c i : CircuitComponent) :
  heap s !! component = Some (Component c) ->
  heap s !! item = Some (Component i) ->
  pixel_point (pos c) = true ->
  pixel_point (pos i) = true ->
  first_candidate s component item ->
  exists s' c',
    check_connections component s = inr (tt, s') /\
    heap s' !! component = Some (Component c') /\
    pos c' = QPoint (xp (pos i) + inject_Z (grid_size c * 6))%Q (yp (pos i)).
Proof.
  intros Hc Hi _ _ Hfirst.
  destruct (check_connections_first s component item c i Hc Hi Hfirst)
    as (Hne & _ & _ & Hrun).
  exists (bound_scene s component item c i), (attached component item c i).1.
  split; [exact Hrun|]. split; [|reflexivity].
  apply bound_heap_component; [eapply lookup_lt_Some; eauto | exact Hne].
Qed.

(** Scenario 2: the qubit is at (0, 0), the cell size is 24, and the gate
    is released at (100, 0).  The snap of the release puts it at (96, 0);
    connection resolution then puts it at (144, 0). *)
Lemma align_scenario_2 :
  exists c i,
    heap (Demo.scene_of (Demo.session Demo.gate_in_reach)) !! 1
    = Some (Component c) /\
    heap (Demo.scene_of (Demo.session Demo.gate_in_reach)) !! 0
    = Some (Component i) /\
    pos c = Demo.at_ 96 0 /\
    pos i = Demo.at_ 0 0 /\
    pixel_point (pos c) = true /\
    pixel_point (pos i) = true /\
    grid_size c = 24%Z /\
    first_candidate (Demo.scene_of (Demo.session Demo.gate_in_reach)) 1 0 /\
    snap_nearest (Demo.at_ 100 0) 24 = Demo.at_ 96 0 /\
    Demo.position_of 1 (Demo.session Demo.scenario_2)
    = Some (Demo.at_ 144 0) /\
    exists s' c',
      check_connections 1 (Demo.scene_of (Demo.session Demo.gate_in_reach))
      = inr (tt, s') /\
      heap s' !! 1 = Some (Component c') /\
      pos c' = QPoint (xp (pos i) + inject_Z (grid_size c * 6))%Q (yp (pos i)).
Proof.
  eexists. eexists. split; [reflexivity|]. split; [reflexivity|].
  split; [reflexivity|]. split; [reflexivity|].
  split; [reflexivity|]. split; [reflexivity|]. split; [reflexivity|].
  assert (Hfirst : first_candidate
                     (Demo.scene_of (Demo.session Demo.gate_in_reach)) 1 0).
  { exists [1], []. split; [reflexivity|]. split; [reflexivity|].
    intros r Hr. apply list_elem_of_singleton in Hr. subst r. reflexivity. }
  split; [exact Hfirst|]. split; [reflexivity|]. split; [reflexivity|].
  apply (check_connections_aligns_gate
           (Demo.scene_of (Demo.session Demo.gate_in_reach)) 1 0);
    [reflexivity | reflexivity | reflexivity | reflexivity | exact Hfirst].
Defined.

(** C7.  If the settled component is a qubit, or if it is a gate and every
    qubit of the scene is at a Manhattan distance of more than eight cells,
    connection resolution leaves the scene as it is: the store (so every
    link and every line), the items of the scene and the calls made. *)
Theorem check_connections_out_of_reach (s : SimulationScene)
    (component : ref) (c : CircuitComponent) :
  heap s !! component = Some (Component c) ->
  (component_type c = TYPE_QUBIT \/
   forall item i,
     item ∈ items s ->
     heap s !! item = Some (Component i) ->
     component_type i = TYPE_QUBIT ->
     (8 * inject_Z (grid_size c)
      < Qabs (xp (pos c) - xp (pos i)) + Qabs (yp (pos c) - yp (pos i)))%Q) ->
  check_connections component s = inr (tt, s).
Proof.
  intros Hc Hfar. apply (check_connections_none s component c Hc).
  intros item Hin.
  destruct (candidate s component item) eqn:Hcand; [exfalso | reflexivity].
  apply candidate_inv in Hcand as (c0 & i & Hc0 & Hi & _ & Htc & Hti & Hw).
  rewrite Hc in Hc0. inversion Hc0; subst c0.
  destruct Hfar as [Hq | Hfar].
  - rewrite Hq in Htc. discriminate Htc.
  - specialize (Hfar item i Hin Hi Hti).
    apply within_reach_spec in Hw. lra.
Qed.

(** A gate dropped 576 units away from the only qubit (the threshold is
    192), and the qubit itself. *)
Lemma out_of_reach_example :
  exists c,
    heap (Demo.scene_of (Demo.session Demo.gate_out_of_reach)) !! 1
    = Some (Component c) /\
    component_type c = TYPE_GATE /\
    pos c = Demo.at_ 288 288 /\
    check_connections 1 (Demo.scene_of (Demo.session Demo.gate_out_of_reach))
    = inr (tt, Demo.scene_of (Demo.session Demo.gate_out_of_reach)) /\
    check_connections 0 (Demo.scene_of (Demo.session Demo.gate_out_of_reach))
    = inr (tt, Demo.scene_of (Demo.session Demo.gate_out_of_reach)).
Proof.
  eexists. split; [reflexivity|]. split; [reflexivity|]. split; [reflexivity|].
  split.
  - eapply (check_connections_out_of_reach
              (Demo.scene_of (Demo.session Demo.gate_out_of_reach)) 1);
      [reflexivity|].
    right. intros item i Hin Hi Hti.
    change (item ∈ [1; 0]) in Hin.
    apply elem_of_cons in Hin as [-> | Hin].
    + inversion Hi; subst i. discriminate Hti.
    + apply list_elem_of_singleton in Hin. subst item.
      inversion Hi; subst i. reflexivity.
  - eapply (check_connections_out_of_reach
              (Demo.scene_of (Demo.session Demo.gate_out_of_reach)) 0);
      [reflexivity|].
    left. reflexivity.
Defined.

(** C3.  When connection resolution binds a gate to a qubit whose
    [connected_next] is [None], the branch of line 150 is taken all the
    same ([None != component] holds) and [removeItem] is called with
    [None], before anything else is done to the scene. *)
Theorem check_connections_removes_none (s : SimulationScene)
    (component item : ref) (c i : CircuitComponent) :
  heap s !! component = Some (Component c) ->
  heap s !! item = Some (Component i) ->
  first_candidate s component item ->
  connected_next i = None ->
  exists s' later,
    check_connections component s = inr (tt, s') /\
    calls s' = calls s ++ RemoveItem None :: later.
Proof.
  intros Hc Hi Hfirst Hnext.
  destruct (check_connections_first s component item c i Hc Hi Hfirst)
    as (_ & _ & _ & Hrun).
  exists (bound_scene s component item c i). eexists.
  split; [exact Hrun|].
  unfold bound_scene, evicted. rewrite Hnext.
  rewrite bool_decide_eq_true_2 by discriminate.
  cbn [calls items]. rewrite <- !app_assoc. reflexivity.
Qed.

(** The first attachment of a gate to a fresh qubit. *)
Lemma removes_none_example :
  exists c i,
    heap (Demo.scene_of (Demo.session Demo.gate_in_reach)) !! 1
    = Some (Component c) /\
    heap (Demo.scene_of (Demo.session Demo.gate_in_reach)) !! 0
    = Some (Component i) /\
    first_candidate (Demo.scene_of (Demo.session Demo.gate_in_reach)) 1 0 /\
    connected_next i = None /\
    calls (Demo.scene_of (Demo.session
             (Demo.gate_in_reach ++ [Demo.release 1 100 10])))
    = [AddItem 0; AddItem 1; RemoveItem None; AddItem 2] /\
    exists s' later,
      check_connections 1 (Demo.scene_of (Demo.session Demo.gate_in_reach))
      = inr (tt, s') /\
      calls s'
      = calls (Demo.scene_of (Demo.session Demo.gate_in_reach))
        ++ RemoveItem None :: later.
Proof.
  eexists. eexists. split; [reflexivity|]. split; [reflexivity|].
  assert (Hfirst : first_candidate
                     (Demo.scene_of (Demo.session Demo.gate_in_reach)) 1 0).
  { exists [1], []. split; [reflexivity|]. split; [reflexivity|].
    intros r Hr. apply list_elem_of_singleton in Hr. subst r. reflexivity. }
  split; [exact Hfirst|]. split; [reflexivity|]. split; [reflexivity|].
  apply (check_connections_removes_none
           (Demo.scene_of (Demo.session Demo.gate_in_reach)) 1 0 _ _
           eq_refl eq_refl Hfirst eq_refl).
Defined.

(** ** Eviction *)





(** ** The symmetry of the links *)

Section Sessions.

Variable unicode_numeric : N -> bool.
Variable py_int : Py.str -> option Z.
Variable load_pixmap : Py.str -> QPixmap.

Lemma perform_reachable (w w' : SimulationWindow) (e : UserEvent) :
  reachable unicode_numeric py_int load_pixmap w ->
  perform unicode_numeric py_int load_pixmap w e = inr w' ->
  reachable unicode_numeric py_int load_pixmap w'.
Proof.
  unfold reachable. intros Hw Hrun. destruct e as [event | self p]; cbn in Hrun.
  - eapply rtc_r; [exact Hw|]. eapply step_drop. exact Hrun.
  - destruct (bool_decide (self ∈ items (scene w))) eqn:B.
    + apply bool_decide_eq_true_1 in B.
      destruct ((drag_to self p;; mouseReleaseEvent self) (scene w))
        as [x | [[] scene']] eqn:E; [discriminate Hrun|].
      inversion Hrun; subst w'.
      eapply rtc_r; [exact Hw|]. eapply step_drag_release; eassumption.
    + inversion Hrun; subst w'. exact Hw.
Qed.

Lemma run_reachable (es : list UserEvent) (w w' : SimulationWindow) :
  reachable unicode_numeric py_int load_pixmap w ->
  run unicode_numeric py_int load_pixmap es w = inr w' ->
  reachable unicode_numeric py_int load_pixmap w'.
Proof.
  revert w. induction es as [|e es IH]; intros w Hw Hrun; cbn in Hrun.
  - inversion Hrun; subst w'. exact Hw.
  - destruct (perform unicode_numeric py_int load_pixmap w e) as [x | w1] eqn:E;
      [discriminate Hrun|].
    apply (IH w1); [|exact Hrun].
    eapply perform_reachable; eassumption.
Qed.

(** C2, as the code has it.  In every state that the editor can reach by
    drops and drag-releases, a component of the canvas whose
    [connected_prev] is set has there a qubit whose [connected_next] points
    back to it; and a [connected_next] that is set is a gate whose
    [connected_prev] is set (to the qubit it was attached to last, which
    need not be the one that still refers to it). *)
Theorem reachable_links (w : SimulationWindow) :
  reachable unicode_numeric py_int load_pixmap w ->
  prev_symmetry (scene w) /\ next_attached (scene w).
Proof.
  intros Hw.
  pose proof (links_ok_reachable unicode_numeric py_int load_pixmap w Hw)
    as Hok.
  split.
  - intros r c q Hin Hr Hq.
    destruct (Hok r c Hr) as [Hprev _].
    destruct (Hprev q Hq) as (_ & i & Hi & Hti & Hback).
    exists i. auto.
  - intros r c g Hr Hg.
    destruct (Hok r c Hr) as [_ Hnext].
    destruct (Hnext g Hg) as (_ & c' & Hc' & Htc' & Hs).
    exists c'. auto.
Qed.

End Sessions.

(** The session in which a gate is attached to one qubit and then to
    another leads to a state of the editor. *)
Lemma rebinding_reachable :
  reachable Demo.numeric Demo.int Demo.pixmaps
    {| scale := 24; scene := Demo.after_rebinding |}.
Proof.
  apply (run_reachable Demo.numeric Demo.int Demo.pixmaps Demo.rebinding
           init_window).
  - apply rtc_refl.
  - vm_compute. reflexivity.
Qed.

Lemma reachable_links_example :
  reachable Demo.numeric Demo.int Demo.pixmaps
    {| scale := 24; scene := Demo.after_rebinding |} /\
  prev_symmetry Demo.after_rebinding /\
  next_attached Demo.after_rebinding.
Proof.
  split; [exact rebinding_reachable|].
  exact (reachable_links Demo.numeric Demo.int Demo.pixmaps
           {| scale := 24; scene := Demo.after_rebinding |}
           rebinding_reachable).
Defined.

(** Against C2 as stated: after that session the first qubit (object 0) is
    on the canvas and its [connected_next] is the gate (object 2), whose
    [connected_prev] is the second qubit (object 1). *)
Lemma rebinding_breaks_symmetry :
  reachable Demo.numeric Demo.int Demo.pixmaps
    {| scale := 24; scene := Demo.after_rebinding |} /\
  items Demo.after_rebinding = [4; 3; 2; 1; 0] /\
  connected_next <$> Demo.component_of 0 (Demo.session Demo.rebinding)
  = Some (Some 2) /\
  connected_prev <$> Demo.component_of 2 (Demo.session Demo.rebinding)
  = Some (Some 1) /\
  ~ link_symmetry Demo.after_rebinding.
Proof.
  split; [exact rebinding_reachable|]. split; [reflexivity|].
  split; [vm_compute; reflexivity|]. split; [vm_compute; reflexivity|].
  intros Hsym.
  assert (Hin : 0 ∈ items Demo.after_rebinding).
  { change (0 ∈ [4; 3; 2; 1; 0]). rewrite !elem_of_cons. tauto. }
  destruct (Hsym 0 _ Hin eq_refl) as [Hnext _].
  destruct (Hnext 2 eq_refl) as (c' & Hc' & _ & Hprev).
  inversion Hc'; subst c'. discriminate Hprev.
Qed.

(** ** Connection lines *)

(** C4, the failing case: after the eviction session the qubit (object 0)
    is bound to the second gate (object 3) and the first gate (object 1) is
    off the canvas, yet the line of the replaced binding, tagged with the
    qubit and the first gate, is still on the canvas beside the new one. *)
Lemma stale_line_survives_eviction :
  Demo.scene_of (Demo.session Demo.eviction) = Demo.after_eviction /\
  connected_next <$> Demo.component_of 0 (Demo.session Demo.eviction)
  = Some (Some 3) /\
  (1 ∉ items Demo.after_eviction) /\
  line_on_canvas Demo.after_eviction 0 1 /\
  line_on_canvas Demo.after_eviction 0 3.
Proof.
  split; [vm_compute; reflexivity|]. split; [vm_compute; reflexivity|].
  split.
  { change (1 ∉ [4; 3; 2; 0]). rewrite !not_elem_of_cons.
    repeat split; try lia. apply not_elem_of_nil. }
  split.
  - exists 2. eexists. split; [|split; [reflexivity | split; reflexivity]].
    change (2 ∈ [4; 3; 2; 0]). rewrite !elem_of_cons. tauto.
  - exists 4. eexists. split; [|split; [reflexivity | split; reflexivity]].
    change (4 ∈ [4; 3; 2; 0]). rewrite !elem_of_cons. tauto.
Qed.

(** * Further properties *)

(** ** Lines of the canvas along a session *)

Lemma NoDup_without (rs its : list ref) : NoDup its -> NoDup (without rs its).
Proof.
  unfold without. revert its. induction rs as [|a rs IH]; intros its H; simpl.
  - exact H.
  - apply IH. apply NoDup_filter. exact H.
Qed.

Lemma NoDup_added (r : ref) (its : list ref) : NoDup its -> NoDup (added r its).
Proof.
  intros H. unfold added. destruct (bool_decide (r ∈ its)) eqn:B; [exact H|].
  apply bool_decide_eq_false_1 in B. apply NoDup_cons. split; assumption.
Qed.

Lemma lines_ok_set_pos (s : SimulationScene) (r : ref) (c : CircuitComponent)
    (p : QPointF) :
  lines_ok s ->
  heap s !! r = Some (Component c) ->
  lines_ok {| heap := <[r := Component (set_pos p c)]> (heap s);
              items := items s;
              calls := calls s |}.
Proof.
  intros (Hnd & Huniq & Hline) Hr.
  assert (Hlr : r < length (heap s)) by (eapply lookup_lt_Some; eauto).
  assert (Hl : forall r' l, <[r := Component (set_pos p c)]> (heap s) !! r'
                            = Some (Line l) <-> heap s !! r' = Some (Line l)).
  { intros r' l. destruct (decide (r' = r)) as [->|Hn].
    - rewrite list_lookup_insert_eq by exact Hlr. rewrite Hr.
      split; intros E; discriminate E.
    - rewrite list_lookup_insert_ne by (intros E; apply Hn; symmetry; exact E).
      reflexivity. }
  split; [exact Hnd|]. cbn [heap items]. split.
  - intros r1 r2 l1 l2 H1 H2 E1 E2. apply Hl in E1. apply Hl in E2.
    eapply Huniq; eassumption.
  - intros q cq g Hq Hg.
    assert (Hold : exists cq0, heap s !! q = Some (Component cq0) /\
                               connected_next cq0 = Some g).
    { destruct (decide (q = r)) as [->|Hn].
      - rewrite list_lookup_insert_eq in Hq by exact Hlr.
        inversion Hq; subst cq. exists c. auto.
      - rewrite list_lookup_insert_ne in Hq
          by (intros E; apply Hn; symmetry; exact E).
        exists cq. auto. }
    destruct Hold as (cq0 & Hq0 & Hg0).
    destruct (Hline q cq0 g Hq0 Hg0) as (rl & l & Hin & Hrl & Htq & Htg).
    exists rl, l. cbn [heap items]. rewrite Hl. auto.
Qed.

Lemma lines_ok_new_component (s : SimulationScene) (item : CircuitComponent) :
  connected_next item = None ->
  lines_ok s ->
  lines_ok {| heap := heap s ++ [Component item];
              items := added (length (heap s)) (items s);
              calls := calls s ++ [AddItem (length (heap s))] |}.
Proof.
  intros Hn (Hnd & Huniq & Hline).
  assert (Hl : forall r l, (heap s ++ [Component item]) !! r = Some (Line l)
                           <-> heap s !! r = Some (Line l)).
  { intros r l. destruct (decide (r < length (heap s))) as [Hlt|Hge].
    - rewrite lookup_app_l by exact Hlt. reflexivity.
    - rewrite lookup_app_r by lia. rewrite (lookup_ge_None_2 (heap s)) by lia.
      destruct (r - length (heap s)) as [|n]; [|destruct n];
        split; intros E; discriminate E. }
  split; [apply NoDup_added; exact Hnd|]. cbn [heap items]. split.
  - intros r1 r2 l1 l2 H1 H2 E1 E2. apply Hl in E1. apply Hl in E2.
    apply elem_of_added in H1 as [-> | H1];
      [rewrite lookup_ge_None_2 in E1 by lia; discriminate E1|].
    apply elem_of_added in H2 as [-> | H2];
      [rewrite lookup_ge_None_2 in E2 by lia; discriminate E2|].
    eapply Huniq; eassumption.
  - intros q cq g Hq Hg.
    destruct (decide (q < length (heap s))) as [Hlt|Hge].
    + rewrite lookup_app_l in Hq by exact Hlt.
      destruct (Hline q cq g Hq Hg) as (rl & l & Hin & Hrl & Htq & Htg).
      exists rl, l. cbn [heap items]. rewrite Hl, elem_of_added. auto.
    + rewrite lookup_app_r in Hq by lia.
      destruct (q - length (heap s)) as [|n]; [|destruct n; discriminate Hq].
      inversion Hq; subst cq. rewrite Hn in Hg. discriminate Hg.
Qed.

Lemma elem_of_evicted (s : SimulationScene) (old : option ref)
    (component r : ref) :
  r ∈ items (evicted old component s) <->
  r ∈ items s /\ (old ≠ Some component -> old ≠ Some r).
Proof.
  unfold evicted. destruct (bool_decide (old ≠ Some component)) eqn:B.
  - apply bool_decide_eq_true_1 in B. cbn [items].
    destruct old as [o|].
    + rewrite list_elem_of_filter. split.
      * intros [Hn Hin]. split; [exact Hin|]. intros _ E. inversion E.
        subst. contradiction.
      * intros [Hin Hn]. split; [|exact Hin]. intros E. subst.
        apply (Hn B). reflexivity.
    + split; [intros H; split; [exact H | intros _ E; discriminate E]
             | intros [H _]; exact H].
  - apply bool_decide_eq_false_1 in B. split; [|intros [H _]; exact H].
    intros H. split; [exact H|]. intros Hn. contradiction.
Qed.

Lemma NoDup_evicted (s : SimulationScene) (old : option ref) (component : ref) :
  NoDup (items s) -> NoDup (items (evicted old component s)).
Proof.
  intros H. unfold evicted.
  destruct (bool_decide (old ≠ Some component)); [|exact H].
  cbn [items]. destruct old; [apply NoDup_filter|]; exact H.
Qed.

Lemma elem_of_filter_bool (f : ref -> bool) (l : list ref) (x : ref) :
  x ∈ List.filter f l <-> x ∈ l /\ f x = true.
Proof. rewrite !list_elem_of_In. apply filter_In. Qed.

Lemma bound_items_iff (s : SimulationScene) (component item : ref)
    (c i : CircuitComponent) (r : ref) :
  r ∈ items (bound_scene s component item c i) <->
  r = length (heap s) \/
  (r ∈ items (evicted (connected_next i) component s) /\
   line_of (<[item := Component (attached component item c i).2]>
              (<[component := Component (attached component item c i).1]>
                 (heap s))) item component r = false).
Proof.
  unfold bound_scene. cbn [items]. rewrite !length_insert.
  rewrite elem_of_added, elem_of_without, elem_of_filter_bool.
  split; (intros [H | [H1 H2]]; [left; exact H | right; split; [exact H1|]]).
  - destruct (line_of _ item component r); [|reflexivity].
    exfalso. apply H2. split; [exact H1 | reflexivity].
  - intros [_ E]. rewrite H2 in E. discriminate E.
Qed.

Lemma lines_ok_bound (s : SimulationScene) (component item : ref)
    (c i : CircuitComponent) :
  links_ok s ->
  lines_ok s ->
  heap s !! component = Some (Component c) ->
  heap s !! item = Some (Component i) ->
  item ≠ component ->
  lines_ok (bound_scene s component item c i).
Proof.
  intros Hok (Hnd & Huniq & Hline) Hc Hi Hne.
  assert (Hlc : component < length (heap s)) by (eapply lookup_lt_Some; eauto).
  assert (Hli : item < length (heap s)) by (eapply lookup_lt_Some; eauto).
  pose proof (bound_heap_component s component item c i Hlc Hne) as HC.
  pose proof (bound_heap_item s component item c i Hli) as HI.
  pose proof (bound_heap_other s component item c i) as HO.
  pose proof (bound_heap_new s component item c i) as HN.
  pose proof (bound_heap_length s component item c i) as HL.
  pose proof (bound_items_iff s component item c i) as HM.
  set (s' := bound_scene s component item c i) in *.
  set (h := <[item := Component (attached component item c i).2]>
              (<[component := Component (attached component item c i).1]>
                 (heap s))) in *.
  (* the lines of the store are the old ones and the new one *)
  assert (Hh : forall r l, heap s !! r = Some (Line l) -> h !! r = Some (Line l)).
  { intros r l Hr. unfold h.
    rewrite !list_lookup_insert_ne; [exact Hr | |]; intros E; subst r; congruence. }
  assert (Hold : forall r l, heap s' !! r = Some (Line l) ->
                   r ≠ length (heap s) -> heap s !! r = Some (Line l)).
  { intros r l Hr Hn.
    assert (Hlt : r < length (heap s)).
    { pose proof (lookup_lt_Some _ _ _ Hr) as Hlt. rewrite HL in Hlt. lia. }
    rewrite <- HO; [exact Hr | | | exact Hlt]; intros E; subst r; congruence. }
  assert (Hkeep : forall r l, heap s !! r = Some (Line l) ->
                    heap s' !! r = Some (Line l)).
  { intros r l Hr. rewrite HO; [exact Hr | | |];
      [intros E; subst r; congruence | intros E; subst r; congruence
       | eapply lookup_lt_Some; eauto]. }
  (* a line of the old canvas stays unless it carries the new tag *)
  assert (Hstay : forall r l, r ∈ items s -> heap s !! r = Some (Line l) ->
                    (qubit l, gate l) ≠ (item, component) -> r ∈ items s').
  { intros r l Hin Hr Htag. apply HM. right. split.
    - apply elem_of_evicted. split; [exact Hin|]. intros _ E.
      destruct (Hok item i Hi) as [_ Hnext].
      destruct (Hnext r E) as (_ & c' & Hc' & _). congruence.
    - unfold line_of. rewrite (Hh r l Hr).
      destruct (bool_decide (qubit l = item)) eqn:B1; [|reflexivity].
      destruct (bool_decide (gate l = component)) eqn:B2; [|reflexivity].
      apply bool_decide_eq_true_1 in B1. apply bool_decide_eq_true_1 in B2.
      exfalso. apply Htag. congruence. }
  assert (Hnew : length (heap s) ∈ items s') by (apply HM; left; reflexivity).
  assert (Hfresh : forall r l, r ∈ items s' -> heap s' !! r = Some (Line l) ->
                     qubit l = item -> gate l = component ->
                     r = length (heap s)).
  { intros r l Hin Hr Hq Hg.
    destruct (decide (r = length (heap s))) as [E|Hn]; [exact E | exfalso].
    apply HM in Hin as [E | [_ Hlo]]; [contradiction|].
    unfold line_of in Hlo. rewrite (Hh r l (Hold r l Hr Hn)) in Hlo.
    rewrite !bool_decide_eq_true_2 in Hlo by assumption. discriminate Hlo. }
  split; [|split].
  - unfold s', bound_scene. cbn [items].
    apply NoDup_added, NoDup_without, NoDup_evicted. exact Hnd.
  - intros r1 r2 l1 l2 H1 H2 E1 E2 Hq Hg.
    destruct (decide (r1 = length (heap s))) as [N1|N1];
      destruct (decide (r2 = length (heap s))) as [N2|N2].
    + congruence.
    + subst r1. rewrite HN in E1. inversion E1; subst l1. cbn in Hq, Hg.
      rewrite (Hfresh r2 l2 H2 E2); auto.
    + subst r2. rewrite HN in E2. inversion E2; subst l2. cbn in Hq, Hg.
      apply (Hfresh r1 l1 H1 E1); auto.
    + apply HM in H1 as [E | [H1 _]]; [contradiction|].
      apply HM in H2 as [E | [H2 _]]; [contradiction|].
      apply elem_of_evicted in H1 as [H1 _].
      apply elem_of_evicted in H2 as [H2 _].
      apply (Huniq r1 r2 l1 l2); auto.
  - intros q cq g Hq Hg.
    destruct (decide (q = item)) as [->|Hqi].
    + rewrite HI in Hq. inversion Hq; subst cq. cbn in Hg.
      inversion Hg; subst g.
      exists (length (heap s)). eexists.
      split; [exact Hnew|]. split; [exact HN|]. split; reflexivity.
    + assert (Hq0 : exists cq0, heap s !! q = Some (Component cq0) /\
                                connected_next cq0 = Some g).
      { destruct (decide (q = component)) as [->|Hqc].
        - rewrite HC in Hq. inversion Hq; subst cq. exists c. auto.
        - exists cq. split; [|exact Hg].
          rewrite <- HO; [exact Hq | exact Hqc | exact Hqi |].
          pose proof (lookup_lt_Some _ _ _ Hq) as Hlt. rewrite HL in Hlt.
          destruct (decide (q = length (heap s))) as [->|]; [|lia].
          rewrite HN in Hq. discriminate Hq. }
      destruct Hq0 as (cq0 & Hq0 & Hg0).
      destruct (Hline q cq0 g Hq0 Hg0) as (rl & l & Hin & Hrl & Htq & Htg).
      exists rl, l. split; [|split; [apply Hkeep; exact Hrl | auto]].
      apply (Hstay rl l Hin Hrl). intros E. inversion E. congruence.
Qed.

Lemma lines_ok_check_connections (component : ref) (s s' : SimulationScene) :
  links_ok s ->
  lines_ok s ->
  check_connections component s = inr (tt, s') ->
  lines_ok s'.
Proof.
  intros Hok Hlines Hrun.
  destruct (heap s !! component) as [[c|l]|] eqn:Hc;
    try (unfold check_connections, mbind, M_bind, get_component in Hrun;
         rewrite Hc in Hrun; discriminate Hrun).
  destruct (check_connections_cases component c s Hc)
    as [E | (item & i & _ & Hi & Htc & Hti & E)];
    rewrite E in Hrun; inversion Hrun; subst s'.
  - exact Hlines.
  - apply lines_ok_bound; try assumption.
    intros E'. subst item. rewrite Hc in Hi. inversion Hi; subst i.
    rewrite Htc in Hti. discriminate Hti.
Qed.

Lemma lines_ok_drag_release (self : ref) (p : QPointF)
    (s s' : SimulationScene) :
  links_ok s ->
  lines_ok s ->
  (drag_to self p;; mouseReleaseEvent self) s = inr (tt, s') ->
  lines_ok s'.
Proof.
  intros Hok Hlines Hrun.
  unfold drag_to, mbind, M_bind, modify_component in Hrun.
  destruct (heap s !! self) as [[c|l]|] eqn:Hc; try discriminate Hrun.
  assert (Hl : self < length (heap s)) by (eapply lookup_lt_Some; eauto).
  pose proof (links_ok_set_pos s self c p Hok Hc) as Hok1.
  pose proof (lines_ok_set_pos s self c p Hlines Hc) as Hlines1.
  set (s1 := {| heap := <[self:=Component (set_pos p c)]> (heap s);
                items := items s; calls := calls s |}) in *.
  assert (Hc1 : heap s1 !! self = Some (Component (set_pos p c)))
    by (apply list_lookup_insert_eq; exact Hl).
  unfold mouseReleaseEvent, mbind, M_bind, get_component in Hrun.
  rewrite Hc1 in Hrun.
  destruct (Z.eqb (grid_size (set_pos p c)) 0); [discriminate Hrun|].
  unfold modify_component in Hrun. rewrite Hc1 in Hrun.
  pose proof (links_ok_set_pos s1 self (set_pos p c)
                (snap_nearest (pos (set_pos p c)) (grid_size (set_pos p c)))
                Hok1 Hc1) as Hok2.
  pose proof (lines_ok_set_pos s1 self (set_pos p c)
                (snap_nearest (pos (set_pos p c)) (grid_size (set_pos p c)))
                Hlines1 Hc1) as Hlines2.
  unfold in_scene in Hrun. cbn [items] in Hrun.
  destruct (bool_decide (self ∈ items s1)).
  - eapply lines_ok_check_connections; [exact Hok2 | exact Hlines2 | exact Hrun].
  - inversion Hrun; subst s'. exact Hlines2.
Qed.

Section Lines.

Variable unicode_numeric : N -> bool.
Variable py_int : Py.str -> option Z.
Variable load_pixmap : Py.str -> QPixmap.

Lemma lines_ok_step (w w' : SimulationWindow) :
  step unicode_numeric py_int load_pixmap w w' ->
  links_ok (scene w) -> lines_ok (scene w) -> lines_ok (scene w').
Proof.
  intros Hstep Hok Hlines.
  destruct Hstep as [w w' event Hdrop | w self p scene' Hin Hrun].
  - unfold dropEvent in Hdrop. destruct (mime_text event) as [text|].
    + unfold mbind at 1, result_bind in Hdrop.
      destruct (dropped_component _ _ _ _ _ _) as [e|item] eqn:Hitem;
        [discriminate Hdrop|].
      apply dropped_component_fresh in Hitem as (_ & Hn & _).
      cbn in Hdrop. inversion Hdrop; subst w'. cbn [scene].
      apply lines_ok_new_component; assumption.
    + inversion Hdrop; subst w'. exact Hlines.
  - cbn [scene]. eapply lines_ok_drag_release; eassumption.
Qed.

(** X1.  In every state that the editor can reach, the scene lists no
    item twice, no two lines of the canvas carry the same (qubit, gate) tag, and
    every [connected_next] that is set has a line with its tag on the
    canvas: each binding that the links record has exactly one line. *)
Theorem reachable_lines (w : SimulationWindow) :
  reachable unicode_numeric py_int load_pixmap w ->
  lines_ok (scene w).
Proof.
  intros Hw.
  assert (H : links_ok (scene w) /\ lines_ok (scene w)); [|apply H].
  revert w Hw. unfold reachable.
  apply (rtc_ind_r (fun w => links_ok (scene w) /\ lines_ok (scene w))).
  - split.
    + intros r c Hr. discriminate Hr.
    + split; [apply NoDup_nil; exact I|]. split.
      * intros r1 r2 l1 l2 H1. apply elem_of_nil in H1. contradiction.
      * intros q c g Hq. discriminate Hq.
  - intros y z _ Hstep [Hok Hlines]. split.
    + eapply links_ok_step; eassumption.
    + eapply lines_ok_step; eassumption.
Qed.

End Lines.

Lemma eviction_reachable :
  reachable Demo.numeric Demo.int Demo.pixmaps
    {| scale := 24; scene := Demo.after_eviction |}.
Proof.
  apply (run_reachable Demo.numeric Demo.int Demo.pixmaps Demo.eviction
           init_window).
  - apply rtc_refl.
  - vm_compute. reflexivity.
Qed.

Lemma reachable_lines_example :
  reachable Demo.numeric Demo.int Demo.pixmaps
    {| scale := 24; scene := Demo.after_eviction |} /\
  lines_ok Demo.after_eviction.
Proof.
  split; [exact eviction_reachable|].
  exact (reachable_lines Demo.numeric Demo.int Demo.pixmaps
           {| scale := 24; scene := Demo.after_eviction |}
           eviction_reachable).
Defined.

(** ** Drag-release, end to end *)

Lemma drag_release_eq (s : SimulationScene) (self : ref)
    (c : CircuitComponent) (p : QPointF) :
  heap s !! self = Some (Component c) ->
  grid_size c ≠ 0%Z ->
  (drag_to self p;; mouseReleaseEvent self) s =
  if bool_decide (self ∈ items s)
  then check_connections self (snapped s self c p)
  else inr (tt, snapped s self c p).
Proof.
  intros Hc Hg.
  assert (Hl : self < length (heap s)) by (eapply lookup_lt_Some; eauto).
  unfold drag_to, mbind, M_bind, modify_component. rewrite Hc.
  unfold mouseReleaseEvent, mbind, M_bind, get_component. cbn [heap].
  rewrite list_lookup_insert_eq by exact Hl. cbn [grid_size set_pos pos].
  destruct (Z.eqb_spec (grid_size c) 0) as [E|_]; [contradiction|].
  unfold modify_component. cbn [heap items calls].
  rewrite list_lookup_insert_eq by exact Hl.
  rewrite list_insert_insert_eq. unfold in_scene. cbn [items].
  destruct (bool_decide (self ∈ items s)); reflexivity.
Qed.

(** X2.  The release of a gate next to a qubit: connection resolution runs
    on the scene that the snap of the release leaves, and the gate ends
    six cells to the right of the first qubit within reach, not at the
    snapped position.  The position of the release, its snap and the
    position of the qubit are pixel points, so that the two [setPos] of
    lines 52 and 154 do move the gate ([release_setPos_exact],
    [attach_setPos_exact]). *)
Theorem drag_release_overrides_snap (s : SimulationScene) (self item : ref)
    (c i : CircuitComponent) (p : QPointF) :
  heap s !! self = Some (Component c) ->
  heap s !! item = Some (Component i) ->
  grid_size c ≠ 0%Z ->
  self ∈ items s ->
  pixel_point p = true ->
  pixel_point (snap_nearest p (grid_size c)) = true ->
  pixel_point (pos i) = true ->
  first_candidate (snapped s self c p) self item ->
  exists s' c',
    (drag_to self p;; mouseReleaseEvent self) s = inr (tt, s') /\
    heap s' !! self = Some (Component c') /\
    pos c' = QPoint (xp (pos i) + inject_Z (grid_size c * 6))%Q (yp (pos i)).
Proof.
  intros Hc Hi Hg Hin _ _ _ Hfirst.
  assert (Hl : self < length (heap s)) by (eapply lookup_lt_Some; eauto).
  assert (Hne : item ≠ self).
  { destruct Hfirst as (_ & _ & _ & Hcand & _).
    apply candidate_inv in Hcand as (_ & _ & _ & _ & Hne & _). exact Hne. }
  rewrite (drag_release_eq s self c p Hc Hg).
  rewrite bool_decide_eq_true_2 by exact Hin.
  set (c1 := set_pos (snap_nearest p (grid_size c)) c).
  assert (Hc1 : heap (snapped s self c p) !! self = Some (Component c1))
    by (apply list_lookup_insert_eq; exact Hl).
  assert (Hi1 : heap (snapped s self c p) !! item = Some (Component i)).
  { cbn [snapped heap]. rewrite list_lookup_insert_ne; [exact Hi|].
    intros E. apply Hne. symmetry. exact E. }
  destruct (check_connections_first (snapped s self c p) self item c1 i
              Hc1 Hi1 Hfirst) as (_ & _ & _ & Hrun).
  exists (bound_scene (snapped s self c p) self item c1 i),
         (attached self item c1 i).1.
  split; [exact Hrun|]. split; [|reflexivity].
  apply bound_heap_component; [|exact Hne].
  eapply lookup_lt_Some. exact Hc1.
Qed.

(** Scenario 2 through the release itself: the gate is dragged from
    (288, 288) to (100, 0) and released. *)
Lemma drag_release_scenario_2 :
  exists c i,
    heap (Demo.scene_of (Demo.session Demo.gate_out_of_reach)) !! 1
    = Some (Component c) /\
    heap (Demo.scene_of (Demo.session Demo.gate_out_of_reach)) !! 0
    = Some (Component i) /\
    grid_size c ≠ 0%Z /\
    1 ∈ items (Demo.scene_of (Demo.session Demo.gate_out_of_reach)) /\
    pixel_point (Demo.at_ 100 0) = true /\
    pixel_point (snap_nearest (Demo.at_ 100 0) (grid_size c)) = true /\
    pixel_point (pos i) = true /\
    first_candidate
      (snapped (Demo.scene_of (Demo.session Demo.gate_out_of_reach)) 1 c
         (Demo.at_ 100 0)) 1 0 /\
    snap_nearest (Demo.at_ 100 0) (grid_size c) = Demo.at_ 96 0 /\
    QPoint (xp (pos i) + inject_Z (grid_size c * 6))%Q (yp (pos i))
    = Demo.at_ 144 0 /\
    exists s' c',
      (drag_to 1 (Demo.at_ 100 0);; mouseReleaseEvent 1)
        (Demo.scene_of (Demo.session Demo.gate_out_of_reach))
      = inr (tt, s') /\
      heap s' !! 1 = Some (Component c') /\
      pos c' = QPoint (xp (pos i) + inject_Z (grid_size c * 6))%Q (yp (pos i)).
Proof.
  eexists. eexists. split; [reflexivity|]. split; [reflexivity|].
  assert (Hg : 24%Z ≠ 0%Z) by lia.
  split; [exact Hg|].
  assert (Hin : 1 ∈ items (Demo.scene_of (Demo.session Demo.gate_out_of_reach))).
  { change (1 ∈ [1; 0]). apply list_elem_of_here. }
  split; [exact Hin|].
  split; [reflexivity|]. split; [reflexivity|]. split; [reflexivity|].
  match goal with
  | |- first_candidate ?s1 1 0 /\ _ =>
      assert (Hfirst : first_candidate s1 1 0)
  end.
  { exists [1], []. split; [reflexivity|]. split; [vm_compute; reflexivity|].
    intros r Hr. apply list_elem_of_singleton in Hr. subst r.
    vm_compute. reflexivity. }
  split; [exact Hfirst|]. split; [reflexivity|]. split; [reflexivity|].
  exact (drag_release_overrides_snap
           (Demo.scene_of (Demo.session Demo.gate_out_of_reach)) 1 0 _ _
           (Demo.at_ 100 0) eq_refl eq_refl Hg Hin eq_refl eq_refl eq_refl
           Hfirst).
Defined.

(** ** Kinds of the linked components *)

Section Kinds.

Variable unicode_numeric : N -> bool.
Variable py_int : Py.str -> option Z.
Variable load_pixmap : Py.str -> QPixmap.

(** X3.  In every state that the editor can reach, [connected_prev] is only
    ever set on a gate and refers to a qubit, and [connected_next] is only
    ever set on a qubit and refers to a gate. *)
Theorem reachable_link_kinds (w : SimulationWindow) (r : ref)
    (c : CircuitComponent) :
  reachable unicode_numeric py_int load_pixmap w ->
  heap (scene w) !! r = Some (Component c) ->
  (forall q, connected_prev c = Some q ->
     component_type c = TYPE_GATE /\
     exists i, heap (scene w) !! q = Some (Component i) /\
               component_type i = TYPE_QUBIT) /\
  (forall g, connected_next c = Some g ->
     component_type c = TYPE_QUBIT /\
     exists c', heap (scene w) !! g = Some (Component c') /\
                component_type c' = TYPE_GATE).
Proof.
  intros Hw Hr.
  pose proof (links_ok_reachable unicode_numeric py_int load_pixmap w Hw)
    as Hok.
  destruct (Hok r c Hr) as [Hprev Hnext]. split.
  - intros q Hq. destruct (Hprev q Hq) as (Hty & i & Hi & Hti & _).
    split; [exact Hty|]. exists i. auto.
  - intros g Hg. destruct (Hnext g Hg) as (Hty & c' & Hc' & Htc' & _).
    split; [exact Hty|]. exists c'. auto.
Qed.

End Kinds.

Lemma link_kinds_example :
  exists c,
    reachable Demo.numeric Demo.int Demo.pixmaps
      {| scale := 24; scene := Demo.after_rebinding |} /\
    heap Demo.after_rebinding !! 2 = Some (Component c) /\
    connected_prev c = Some 1 /\
    (forall q, connected_prev c = Some q ->
       component_type c = TYPE_GATE /\
       exists i, heap Demo.after_rebinding !! q = Some (Component i) /\
                 component_type i = TYPE_QUBIT) /\
    (forall g, connected_next c = Some g ->
       component_type c = TYPE_QUBIT /\
       exists c', heap Demo.after_rebinding !! g = Some (Component c') /\
                  component_type c' = TYPE_GATE).
Proof.
  eexists. split; [exact rebinding_reachable|]. split; [reflexivity|].
  split; [reflexivity|].
  exact (reachable_link_kinds Demo.numeric Demo.int Demo.pixmaps
           {| scale := 24; scene := Demo.after_rebinding |} 2 _
           rebinding_reachable eq_refl).
Defined.

(** ** Grid alignment along a session *)

Lemma aligned_bound (s : SimulationScene) (component item : ref)
    (c i : CircuitComponent) :
  aligned s ->
  heap s !! component = Some (Component c) ->
  heap s !! item = Some (Component i) ->
  item ≠ component ->
  aligned (bound_scene s component item c i).
Proof.
  intros Hal Hc Hi Hne r c0 Hr.
  assert (Hlc : component < length (heap s)) by (eapply lookup_lt_Some; eauto).
  assert (Hli : item < length (heap s)) by (eapply lookup_lt_Some; eauto).
  destruct (Hal component c Hc) as [Hgc _].
  destruct (Hal item i Hi) as [Hgi (kx & ky & Hx & Hy)].
  destruct (decide (r = component)) as [->|Hn1];
    [|destruct (decide (r = item)) as [->|Hn2]].
  - rewrite bound_heap_component in Hr by assumption.
    inversion Hr; subst c0. cbn. split; [exact Hgc|].
    exists (kx + 6)%Z, ky. cbn. split; [|exact Hy].
    rewrite Hx, Hgc, <- inject_Z_plus. apply inject_Z_injective. lia.
  - rewrite bound_heap_item in Hr by assumption.
    inversion Hr; subst c0. cbn. split; [exact Hgi|]. exists kx, ky. auto.
  - assert (Hlt : r < length (heap s)).
    { pose proof (lookup_lt_Some _ _ _ Hr) as Hlt.
      rewrite bound_heap_length in Hlt.
      destruct (decide (r = length (heap s))) as [->|]; [|lia].
      rewrite bound_heap_new in Hr. discriminate Hr. }
    rewrite bound_heap_other in Hr by assumption. exact (Hal r c0 Hr).
Qed.

Lemma aligned_check_connections (component : ref) (s s' : SimulationScene) :
  aligned s ->
  check_connections component s = inr (tt, s') ->
  aligned s'.
Proof.
  intros Hal Hrun.
  destruct (heap s !! component) as [[c|l]|] eqn:Hc;
    try (unfold check_connections, mbind, M_bind, get_component in Hrun;
         rewrite Hc in Hrun; discriminate Hrun).
  destruct (check_connections_cases component c s Hc)
    as [E | (item & i & _ & Hi & Htc & Hti & E)];
    rewrite E in Hrun; inversion Hrun; subst s'.
  - exact Hal.
  - apply aligned_bound; try assumption.
    intros E'. subst item. rewrite Hc in Hi. inversion Hi; subst i.
    rewrite Htc in Hti. discriminate Hti.
Qed.

Lemma aligned_snapped (s : SimulationScene) (self : ref)
    (c : CircuitComponent) (p : QPointF) :
  aligned s ->
  heap s !! self = Some (Component c) ->
  aligned (snapped s self c p).
Proof.
  intros Hal Hc r c0 Hr.
  assert (Hl : self < length (heap s)) by (eapply lookup_lt_Some; eauto).
  destruct (Hal self c Hc) as [Hg _].
  unfold snapped in Hr. cbn [heap] in Hr.
  destruct (decide (r = self)) as [->|Hn].
  - rewrite list_lookup_insert_eq in Hr by exact Hl.
    inversion Hr; subst c0. cbn. split; [exact Hg|]. rewrite Hg.
    exists (Py.round (xp p / inject_Z 24)), (Py.round (yp p / inject_Z 24)).
    split; reflexivity.
  - rewrite list_lookup_insert_ne in Hr
      by (intros E; apply Hn; symmetry; exact E).
    exact (Hal r c0 Hr).
Qed.

Lemma aligned_drag_release (self : ref) (p : QPointF)
    (s s' : SimulationScene) :
  aligned s ->
  (drag_to self p;; mouseReleaseEvent self) s = inr (tt, s') ->
  aligned s'.
Proof.
  intros Hal Hrun.
  destruct (heap s !! self) as [[c|l]|] eqn:Hc;
    try (unfold drag_to, mbind, M_bind, modify_component in Hrun;
         rewrite Hc in Hrun; discriminate Hrun).
  destruct (Hal self c Hc) as [Hg _].
  rewrite (drag_release_eq s self c p Hc) in Hrun by lia.
  pose proof (aligned_snapped s self c p Hal Hc) as Hal1.
  destruct (bool_decide (self ∈ items s)).
  - eapply aligned_check_connections; eassumption.
  - inversion Hrun; subst s'. exact Hal1.
Qed.

Section Alignment.

Variable unicode_numeric : N -> bool.
Variable py_int : Py.str -> option Z.
Variable load_pixmap : Py.str -> QPixmap.

Lemma aligned_step (w w' : SimulationWindow) :
  step unicode_numeric py_int load_pixmap w w' ->
  scale w = 24%Z /\ aligned (scene w) ->
  scale w' = 24%Z /\ aligned (scene w').
Proof.
  intros Hstep [Hscale Hal].
  destruct Hstep as [w w' event Hdrop | w self p scene' Hin Hrun].
  - unfold dropEvent in Hdrop. destruct (mime_text event) as [text|].
    + unfold mbind at 1, result_bind in Hdrop.
      destruct (dropped_component _ _ _ _ _ _) as [e|item] eqn:Hitem;
        [discriminate Hdrop|].
      apply dropped_component_fresh in Hitem as (_ & _ & Hpos & Hgrid).
      cbn in Hdrop. inversion Hdrop; subst w'. cbn [scale scene].
      split; [exact Hscale|]. intros r c Hr. cbn [heap] in Hr.
      destruct (decide (r < length (heap (scene w)))) as [Hlt|Hge].
      * rewrite lookup_app_l in Hr by exact Hlt. exact (Hal r c Hr).
      * rewrite lookup_app_r in Hr by lia.
        destruct (r - length (heap (scene w))) as [|n];
          [|destruct n; discriminate Hr].
        inversion Hr; subst c. rewrite Hgrid, Hpos, Hscale.
        split; [reflexivity|].
        assert (H24 : (0 < 24)%Z) by lia.
        destruct (snap_floor_coord (xp (scene_pos event)) 24 H24)
          as (_ & _ & Hx).
        destruct (snap_floor_coord (yp (scene_pos event)) 24 H24)
          as (_ & _ & Hy).
        eexists. eexists. split; [exact Hx | exact Hy].
    + inversion Hdrop; subst w'. auto.
  - cbn [scale scene]. split; [exact Hscale|].
    eapply aligned_drag_release; eassumption.
Qed.

Lemma pixel_step_step (w w' : SimulationWindow) :
  pixel_step unicode_numeric py_int load_pixmap w w' ->
  step unicode_numeric py_int load_pixmap w w'.
Proof.
  intros H.
  destruct H as [w w' event Hdrop | w self c p scene' Hin _ _ _ Hrun].
  - eapply step_drop. exact Hdrop.
  - eapply step_drag_release; eassumption.
Qed.

Lemma pixel_reachable_reachable (w : SimulationWindow) :
  pixel_reachable unicode_numeric py_int load_pixmap w ->
  reachable unicode_numeric py_int load_pixmap w.
Proof.
  unfold pixel_reachable, reachable. revert w.
  apply (rtc_ind_r (fun w =>
           rtc (step unicode_numeric py_int load_pixmap) init_window w)).
  - apply rtc_refl.
  - intros y z _ Hstep IH. eapply rtc_r; [exact IH|].
    apply pixel_step_step. exact Hstep.
Qed.

Lemma perform_pixel_reachable (w w' : SimulationWindow) (e : UserEvent) :
  pixel_reachable unicode_numeric py_int load_pixmap w ->
  pixel_event w e = true ->
  perform unicode_numeric py_int load_pixmap w e = inr w' ->
  pixel_reachable unicode_numeric py_int load_pixmap w'.
Proof.
  unfold pixel_reachable. intros Hw Hev Hrun.
  destruct e as [event | self p]; cbn in Hrun.
  - eapply rtc_r; [exact Hw|]. eapply pixel_step_drop. exact Hrun.
  - destruct (bool_decide (self ∈ items (scene w))) eqn:B.
    + apply bool_decide_eq_true_1 in B.
      destruct ((drag_to self p;; mouseReleaseEvent self) (scene w))
        as [x | [[] scene']] eqn:E; [discriminate Hrun|].
      inversion Hrun; subst w'.
      cbn [pixel_event] in Hev.
      destruct (heap (scene w) !! self) as [[c|l]|] eqn:Hc;
        try (unfold drag_to, mbind, M_bind, modify_component in E;
             rewrite Hc in E; discriminate E).
      apply andb_prop in Hev as [H1 H2].
      eapply rtc_r; [exact Hw|].
      exact (pixel_step_drag_release unicode_numeric py_int load_pixmap
               w self c p scene' B Hc H1 H2 E).
    + inversion Hrun; subst w'. exact Hw.
Qed.

Lemma run_pixel_reachable (es : list UserEvent) (w w' : SimulationWindow) :
  pixel_reachable unicode_numeric py_int load_pixmap w ->
  pixel_session unicode_numeric py_int load_pixmap es w = true ->
  run unicode_numeric py_int load_pixmap es w = inr w' ->
  pixel_reachable unicode_numeric py_int load_pixmap w'.
Proof.
  revert w. induction es as [|e es IH]; intros w Hw Hs Hrun; cbn in Hrun.
  - inversion Hrun; subst w'. exact Hw.
  - cbn [pixel_session] in Hs. apply andb_prop in Hs as [He Hs].
    destruct (perform unicode_numeric py_int load_pixmap w e) as [x | w1] eqn:E;
      [discriminate Hrun|].
    apply (IH w1); [|exact Hs | exact Hrun].
    eapply perform_pixel_reachable; eassumption.
Qed.

(** X4.  In every state that the editor reaches by drops and by drags
    released at pixel points whose snap is a pixel point, the cell size is 24
    and every component has that cell size and a position whose coordinates
    are multiples of it. *)
Theorem reachable_aligned (w : SimulationWindow) :
  pixel_reachable unicode_numeric py_int load_pixmap w ->
  scale w = 24%Z /\ aligned (scene w).
Proof.
  unfold pixel_reachable. revert w.
  apply (rtc_ind_r (fun w => scale w = 24%Z /\ aligned (scene w))).
  - split; [reflexivity|]. intros r c Hr. discriminate Hr.
  - intros y z _ Hstep IH. apply pixel_step_step in Hstep.
    eapply aligned_step; eassumption.
Qed.

End Alignment.

Lemma rebinding_pixel_reachable :
  pixel_reachable Demo.numeric Demo.int Demo.pixmaps
    {| scale := 24; scene := Demo.after_rebinding |}.
Proof.
  apply (run_pixel_reachable Demo.numeric Demo.int Demo.pixmaps Demo.rebinding
           init_window).
  - apply rtc_refl.
  - vm_compute. reflexivity.
  - vm_compute. reflexivity.
Qed.

Lemma reachable_aligned_example :
  pixel_reachable Demo.numeric Demo.int Demo.pixmaps
    {| scale := 24; scene := Demo.after_rebinding |} /\
  Demo.position_of 2 (Demo.session Demo.rebinding) = Some (Demo.at_ 144 480) /\
  aligned Demo.after_rebinding.
Proof.
  split; [exact rebinding_pixel_reachable|]. split; [vm_compute; reflexivity|].
  exact (proj2 (reachable_aligned Demo.numeric Demo.int Demo.pixmaps
                  {| scale := 24; scene := Demo.after_rebinding |}
                  rebinding_pixel_reachable)).
Defined.

(** ** The drag payload, from the palette to the canvas *)

Lemma split_first (sep : N) (text : Py.str) :
  exists first rest,
    Py.split sep text = first :: rest /\
    (((sep ∉ text) /\ first = text /\ rest = []) \/
     (exists after, text = first ++ sep :: after /\ (sep ∉ first) /\
                    rest = Py.split sep after)).
Proof.
  induction text as [|ch text IH]; cbn [Py.split].
  - exists [], []. split; [reflexivity|]. left.
    split; [apply not_elem_of_nil | split; reflexivity].
  - destruct (N.eqb_spec ch sep) as [->|Hne].
    + exists [], (Py.split sep text). split; [reflexivity|]. right.
      exists text. split; [reflexivity|]. split; [apply not_elem_of_nil|].
      reflexivity.
    + destruct IH as (first & rest & Hsplit & Hcase). rewrite Hsplit.
      exists (ch :: first), rest. split; [reflexivity|].
      destruct Hcase as [(Hno & -> & ->) | (after & -> & Hno & ->)].
      * left. split; [|split; reflexivity].
        apply not_elem_of_cons. split; [|exact Hno].
        intros E. apply Hne. symmetry. exact E.
      * right. exists after. split; [reflexivity|]. split; [|reflexivity].
        apply not_elem_of_cons. split; [|exact Hno].
        intros E. apply Hne. symmetry. exact E.
Qed.

Lemma split_app_sep (sep : N) (first after : Py.str) :
  sep ∉ first ->
  Py.split sep (first ++ sep :: after) = first :: Py.split sep after.
Proof.
  induction first as [|ch first IH]; intros Hno; cbn [Py.split app].
  - rewrite N.eqb_refl. reflexivity.
  - apply not_elem_of_cons in Hno as [Hne Hno].
    destruct (N.eqb_spec ch sep) as [E|_]; [exfalso; apply Hne; symmetry; exact E|].
    rewrite (IH Hno). reflexivity.
Qed.

Lemma split_no_sep (sep : N) (text : Py.str) :
  sep ∉ text -> Py.split sep text = [text].
Proof.
  induction text as [|ch text IH]; intros Hno; cbn [Py.split]; [reflexivity|].
  apply not_elem_of_cons in Hno as [Hne Hno].
  destruct (N.eqb_spec ch sep) as [E|_]; [exfalso; apply Hne; symmetry; exact E|].
  rewrite (IH Hno). reflexivity.
Qed.

(** [data[1]] exists exactly when the text holds a comma. *)
Lemma index_split_name (text : Py.str) :
  ((Py.comma ∉ text) /\ index (Py.split Py.comma text) 1 = inl IndexError) \/
  ((Py.comma ∈ text) /\
   exists name, index (Py.split Py.comma text) 1 = inr name).
Proof.
  destruct (split_first Py.comma text) as (first & rest & Hsplit & Hcase).
  rewrite Hsplit.
  destruct Hcase as [(Hno & _ & ->) | (after & -> & _ & ->)].
  - left. split; [exact Hno | reflexivity].
  - right. split.
    + apply elem_of_app. right. apply list_elem_of_here.
    + destruct (split_cons Py.comma after) as (name & more & E). rewrite E.
      exists name. reflexivity.
Qed.

Lemma digits_range (d : Decimal.uint) (ch : N) :
  ch ∈ Py.digits d -> (48 <= ch)%N /\ (ch <= 57)%N.
Proof.
  induction d; cbn [Py.digits]; intros H;
    try (apply elem_of_nil in H; contradiction);
    apply elem_of_cons in H as [-> | H]; try (apply IHd; exact H); lia.
Qed.

Lemma digits_nonempty (d : Decimal.uint) :
  d <> Decimal.Nil -> Py.digits d <> [].
Proof. destruct d; intros H; [contradiction | ..]; discriminate. Qed.

(** [str(n)] of a number that is not negative: one digit at least, and
    digits only. *)
Lemma str_of_int_digits (n : Z) :
  (0 <= n)%Z ->
  Py.str_of_int n <> [] /\
  forall ch, ch ∈ Py.str_of_int n -> (48 <= ch)%N /\ (ch <= 57)%N.
Proof.
  intros Hn. unfold Py.str_of_int. destruct n as [|p|p]; [| |lia]; cbn [Z.to_int].
  - split; [discriminate|]. apply digits_range.
  - split; [|apply digits_range].
    apply digits_nonempty. apply DecimalPos.Unsigned.to_uint_nonnil.
Qed.

(** [str(n)] of a negative number starts with the minus sign. *)
Lemma str_of_int_negative (n : Z) :
  (n < 0)%Z -> exists ds, Py.str_of_int n = Py.minus :: ds.
Proof.
  intros Hn. unfold Py.str_of_int. destruct n as [|p|p]; [lia | lia |].
  cbn [Z.to_int]. eexists. reflexivity.
Qed.

Lemma str_of_int_no_comma (n : Z) : Py.comma ∉ Py.str_of_int n.
Proof.
  unfold Py.str_of_int.
  destruct (Z.to_int n) as [d|d].
  - intros H. apply digits_range in H. unfold Py.comma in H. lia.
  - intros H. apply elem_of_cons in H as [E | H]; [discriminate E|].
    apply digits_range in H. unfold Py.comma in H. lia.
Qed.

Lemma isnumeric_forall (numeric : N -> bool) (s : Py.str) :
  s <> [] -> (forall ch, ch ∈ s -> numeric ch = true) ->
  Py.isnumeric numeric s = true.
Proof.
  intros Hne Hall. destruct s as [|ch s]; [contradiction|].
  unfold Py.isnumeric. apply forallb_forall. intros x Hx.
  apply Hall. apply list_elem_of_In. exact Hx.
Qed.

Section Payload_round_trip.

Variable unicode_numeric : N -> bool.
Variable py_int : Py.str -> option Z.
Variable load_pixmap : Py.str -> QPixmap.

(** What a drop does with a text, in the order of lines 231-241. *)
Lemma dropEvent_text (w : SimulationWindow) (text : Py.str) (p : QPointF) :
  dropEvent unicode_numeric py_int load_pixmap w
    {| mime_text := Some text; scene_pos := p |} =
  match parse_component_type unicode_numeric py_int
          (Py.split Py.comma text) with
  | inl e => inl e
  | inr ty =>
      match index (Py.split Py.comma text) 1 with
      | inl e => inl e
      | inr name =>
          if Z.eqb (scale w) 0 then inl ZeroDivisionError
          else
            inr {| scale := scale w;
                   scene :=
                     {| heap := heap (scene w) ++
                          [Component
                             {| component_name := name;
                                component_type := ty;
                                grid_size := scale w;
                                pixmap := load_pixmap
                                            (name ++ Py.of_string ".png");
                                pos := snap_floor p (scale w);
                                connected_prev := None;
                                connected_next := None |}];
                        items := added (length (heap (scene w)))
                                   (items (scene w));
                        calls := calls (scene w) ++
                                 [AddItem (length (heap (scene w)))] |} |}
      end
  end.
Proof.
  unfold dropEvent, dropped_component. cbn [mime_text scene_pos].
  unfold mbind at 1 2 3, result_bind.
  destruct (parse_component_type _ _ _) as [e|ty]; [reflexivity|].
  destruct (index _ 1) as [e|name]; [reflexivity|].
  destruct (Z.eqb (scale w) 0); reflexivity.
Qed.

(** The kind that line 231 reads from a payload built at line 79. *)
Lemma parse_drag_payload (ty : Z) (name : Py.str) :
  (forall ch, (48 <= ch)%N -> (ch <= 57)%N -> unicode_numeric ch = true) ->
  unicode_numeric Py.minus = false ->
  ((0 <= ty)%Z -> py_int (Py.str_of_int ty) = Some ty) ->
  parse_component_type unicode_numeric py_int
    (Py.split Py.comma (drag_payload ty name))
  = inr (if (0 <=? ty)%Z then ty else TYPE_QUBIT).
Proof.
  intros Hdigits Hminus Hint. unfold drag_payload.
  rewrite split_app_sep by apply str_of_int_no_comma.
  unfold parse_component_type, index. cbn [lookup list_lookup].
  unfold mbind, result_bind.
  destruct (Z.leb_spec 0 ty) as [Hpos|Hneg].
  - destruct (str_of_int_digits ty Hpos) as [Hne Hall].
    rewrite isnumeric_forall; [rewrite (Hint Hpos); reflexivity | exact Hne |].
    intros ch Hch. destruct (Hall ch Hch). apply Hdigits; assumption.
  - destruct (str_of_int_negative ty Hneg) as (ds & ->).
    unfold Py.isnumeric. cbn [forallb]. rewrite Hminus. reflexivity.
Qed.

(** X5.  The payload that a palette icon gives to a drag, dropped on the
    canvas, creates a component of the icon's kind, named by the icon's name
    up to its first comma (so by the whole name when it holds no comma) and
    drawn with the image of that name; a negative kind is not recognised and
    arrives as the qubit kind. *)
Theorem drag_payload_round_trip (w : SimulationWindow) (p : QPointF)
    (ty : Z) (name : Py.str) :
  (forall ch, (48 <= ch)%N -> (ch <= 57)%N -> unicode_numeric ch = true) ->
  unicode_numeric Py.minus = false ->
  ((0 <= ty)%Z -> py_int (Py.str_of_int ty) = Some ty) ->
  scale w ≠ 0%Z ->
  exists w' c,
    dropEvent unicode_numeric py_int load_pixmap w
      {| mime_text := Some (drag_payload ty name); scene_pos := p |}
    = inr w' /\
    heap (scene w') = heap (scene w) ++ [Component c] /\
    component_type c = (if (0 <=? ty)%Z then ty else TYPE_QUBIT) /\
    component_name c = hd [] (Py.split Py.comma name) /\
    (Py.comma ∉ name -> component_name c = name) /\
    pixmap c = load_pixmap (component_name c ++ Py.of_string ".png").
Proof.
  intros Hdigits Hminus Hint Hscale.
  rewrite dropEvent_text.
  rewrite (parse_drag_payload ty name Hdigits Hminus Hint).
  unfold drag_payload.
  rewrite split_app_sep by apply str_of_int_no_comma.
  destruct (split_cons Py.comma name) as (first & rest & Hname).
  rewrite Hname. unfold index. cbn [lookup list_lookup hd].
  destruct (Z.eqb_spec (scale w) 0) as [E|_]; [contradiction|].
  eexists. eexists. split; [reflexivity|]. cbn.
  split; [reflexivity|]. split; [reflexivity|]. split; [reflexivity|].
  split; [|reflexivity].
  intros Hno. rewrite (split_no_sep Py.comma name Hno) in Hname.
  inversion Hname. reflexivity.
Qed.

(** X6.  What a drop that carries a text can do.  It raises ValueError
    exactly when the tag is numeric and [int] rejects it; otherwise
    IndexError exactly when the text holds no comma; otherwise
    ZeroDivisionError exactly when the cell size is zero; and otherwise it
    succeeds. *)
Theorem dropEvent_outcome (w : SimulationWindow) (text : Py.str)
    (p : QPointF) :
  let tag := hd [] (Py.split Py.comma text) in
  let rejected :=
    Py.isnumeric unicode_numeric tag = true /\ py_int tag = None in
  let outcome :=
    dropEvent unicode_numeric py_int load_pixmap w
      {| mime_text := Some text; scene_pos := p |} in
  (outcome = inl ValueError <-> rejected) /\
  (outcome = inl IndexError <-> ~ rejected /\ (Py.comma ∉ text)) /\
  (outcome = inl ZeroDivisionError <->
   ~ rejected /\ (Py.comma ∈ text) /\ scale w = 0%Z) /\
  ((exists w', outcome = inr w') <->
   ~ rejected /\ (Py.comma ∈ text) /\ (scale w ≠ 0%Z)) /\
  outcome ≠ inl AttributeError.
Proof.
  cbv zeta. rewrite dropEvent_text.
  destruct (index_split_name text) as [[Hno Hidx] | [Hin [name Hidx]]];
    rewrite Hidx;
    destruct (split_cons Py.comma text) as (tag & fields & Hsplit);
    rewrite Hsplit;
    unfold parse_component_type, index; cbn [lookup list_lookup hd];
    unfold mbind, result_bind;
    (destruct (Py.isnumeric unicode_numeric tag) eqn:Hnum;
       [destruct (py_int tag) as [n|] eqn:Hint|]);
    try (destruct (Z.eqb_spec (scale w) 0) as [Hz|Hz]).
  all: repeat match goal with |- _ /\ _ => split | |- _ <-> _ => split end.
  all: try discriminate.
  all: try (intros H; discriminate H).
  all: try (intros [w' H]; discriminate H).
  all: try (intros [H _]; discriminate H).
  all: try (intros _; eexists; reflexivity).
  all: try (intros _; reflexivity).
  all: try (intros; reflexivity).
  all: try (intros [[_ H] _]; discriminate H).
  all: try (intros [[H _] _]; discriminate H).
  all: try (intros [H _]; apply H; split; reflexivity).
  all: try (intros [_ [_ H]]; contradiction).
  all: try (intros [_ H]; contradiction).
  all: try (intros [_ [H _]]; contradiction).
  all: try (intros _; split; [intros [H _]; discriminate H | tauto]).
  all: try (intros _; split; [intros [_ H]; discriminate H | tauto]).
  all: try tauto.
Qed.

End Payload_round_trip.

(** Every icon of the palette, dragged to the empty canvas. *)
Lemma palette_round_trip :
  Forall (fun t : Py.str * Z * (nat * nat) =>
            exists w' c,
              dropEvent Demo.numeric Demo.int Demo.pixmaps init_window
                {| mime_text := Some (drag_payload t.1.2 t.1.1);
                   scene_pos := Demo.at_ 60 10 |}
              = inr w' /\
              heap (scene w') = [Component c] /\
              component_type c = t.1.2 /\
              component_name c = t.1.1)
         components.
Proof.
  assert (Hdigits : forall ch, (48 <= ch)%N -> (ch <= 57)%N ->
                               Demo.numeric ch = true).
  { intros ch H1 H2. unfold Demo.numeric.
    apply N.leb_le in H1. apply N.leb_le in H2. rewrite H1, H2. reflexivity. }
  assert (Hscale : scale init_window ≠ 0%Z) by discriminate.
  repeat constructor; cbn [fst snd].
  all: match goal with
       | |- exists w' c, dropEvent _ _ _ _
                           {| mime_text := Some (drag_payload ?ty ?name);
                              scene_pos := ?p |} = _ /\ _ =>
           destruct (drag_payload_round_trip Demo.numeric Demo.int
                       Demo.pixmaps init_window p ty name Hdigits eq_refl
                       (fun _ => eq_refl) Hscale)
             as (w' & c & Hrun & Hheap & Hty & _ & Hname & _);
           exists w', c; split; [exact Hrun|]; split; [exact Hheap|];
           split; [exact Hty|]; apply Hname; vm_compute;
           intros H; repeat (apply elem_of_cons in H as [H|H];
                             [discriminate H|]);
           apply elem_of_nil in H; exact H
       end.
Defined.

(** ** The store along a session *)

Lemma same_identity_refl (c : CircuitComponent) : same_identity c c.
Proof. repeat split. Qed.

Lemma same_identity_trans (c1 c2 c3 : CircuitComponent) :
  same_identity c1 c2 -> same_identity c2 c3 -> same_identity c1 c3.
Proof.
  intros (A1 & A2 & A3 & A4) (B1 & B2 & B3 & B4).
  repeat split; congruence.
Qed.

Lemma extends_refl (h : list QGraphicsItem) : extends h h.
Proof.
  split; [lia|]. intros r. destruct (h !! r) as [[c|l]|]; [|reflexivity|exact I].
  exists c. split; [reflexivity | apply same_identity_refl].
Qed.

Lemma extends_trans (h1 h2 h3 : list QGraphicsItem) :
  extends h1 h2 -> extends h2 h3 -> extends h1 h3.
Proof.
  intros [L1 H1] [L2 H2]. split; [lia|]. intros r.
  specialize (H1 r). specialize (H2 r).
  destruct (h1 !! r) as [[c|l]|]; [| |exact I].
  - destruct H1 as (c' & E & S1). rewrite E in H2.
    destruct H2 as (c'' & E2 & S2). exists c''. split; [exact E2|].
    eapply same_identity_trans; eassumption.
  - rewrite H1 in H2. exact H2.
Qed.

Lemma extends_insert (h : list QGraphicsItem) (r : ref)
    (c c' : CircuitComponent) :
  h !! r = Some (Component c) ->
  same_identity c c' ->
  extends h (<[r := Component c']> h).
Proof.
  intros Hr Hsame.
  assert (Hl : r < length h) by (eapply lookup_lt_Some; eauto).
  split; [rewrite length_insert; lia|]. intros r'.
  destruct (decide (r' = r)) as [->|Hn].
  - rewrite Hr. exists c'. split; [|exact Hsame].
    apply list_lookup_insert_eq. exact Hl.
  - rewrite list_lookup_insert_ne by (intros E; apply Hn; symmetry; exact E).
    destruct (h !! r') as [[c0|l]|]; [|reflexivity|exact I].
    exists c0. split; [reflexivity | apply same_identity_refl].
Qed.

Lemma extends_app (h new : list QGraphicsItem) : extends h (h ++ new).
Proof.
  split; [rewrite length_app; lia|]. intros r.
  destruct (h !! r) as [o|] eqn:E; [|exact I].
  rewrite lookup_app_l by (eapply lookup_lt_Some; eauto). rewrite E.
  destruct o as [c|l]; [|reflexivity].
  exists c. split; [reflexivity | apply same_identity_refl].
Qed.

Lemma extends_line (h h' : list QGraphicsItem) (r : ref)
    (l : QGraphicsLineItem) :
  extends h h' -> r < length h -> h' !! r = Some (Line l) ->
  h !! r = Some (Line l).
Proof.
  intros [_ H] Hlt Hr. specialize (H r).
  destruct (h !! r) as [[c|l0]|] eqn:E.
  - destruct H as (c' & E' & _). congruence.
  - congruence.
  - apply lookup_ge_None in E. lia.
Qed.

Lemma extends_component (h h' : list QGraphicsItem) (r : ref)
    (c : CircuitComponent) :
  extends h h' -> h !! r = Some (Component c) ->
  exists c', h' !! r = Some (Component c') /\ same_identity c c'.
Proof. intros [_ H] Hr. specialize (H r). rewrite Hr in H. exact H. Qed.

Lemma lines_tagged_extends (h h' : list QGraphicsItem) :
  extends h h' ->
  lines_tagged h ->
  (forall r l, length h <= r -> h' !! r = Some (Line l) ->
     exists q g,
       h' !! qubit l = Some (Component q) /\
       component_type q = TYPE_QUBIT /\
       h' !! gate l = Some (Component g) /\
       component_type g = TYPE_GATE) ->
  lines_tagged h'.
Proof.
  intros Hext Htag Hnew r l Hr.
  destruct (decide (r < length h)) as [Hlt|Hge];
    [|apply (Hnew r l); [lia | exact Hr]].
  pose proof (extends_line h h' r l Hext Hlt Hr) as Hr0.
  destruct (Htag r l Hr0) as (q & g & Hq & Tq & Hg & Tg).
  destruct (extends_component h h' _ q Hext Hq) as (q' & Hq' & _ & Tq' & _).
  destruct (extends_component h h' _ g Hext Hg) as (g' & Hg' & _ & Tg' & _).
  exists q', g'.
  split; [exact Hq'|]. split; [congruence|]. split; [exact Hg' | congruence].
Qed.

Lemma extends_snapped (s : SimulationScene) (self : ref)
    (c : CircuitComponent) (p : QPointF) :
  heap s !! self = Some (Component c) ->
  extends (heap s) (heap (snapped s self c p)).
Proof.
  intros Hc. unfold snapped. cbn [heap].
  apply (extends_insert _ _ c); [exact Hc | repeat split].
Qed.

Lemma extends_bound (s : SimulationScene) (component item : ref)
    (c i : CircuitComponent) :
  heap s !! component = Some (Component c) ->
  heap s !! item = Some (Component i) ->
  item ≠ component ->
  extends (heap s) (heap (bound_scene s component item c i)).
Proof.
  intros Hc Hi Hne. unfold bound_scene. cbn [heap].
  eapply extends_trans; [|apply extends_app].
  apply extends_trans
    with (<[component := Component (attached component item c i).1]> (heap s)).
  - apply (extends_insert _ component c); [exact Hc | repeat split].
  - apply (extends_insert _ item i); [|repeat split].
    rewrite list_lookup_insert_ne by (intros E; apply Hne; symmetry; exact E).
    exact Hi.
Qed.

Lemma store_ok_snapped (s : SimulationScene) (self : ref)
    (c : CircuitComponent) (p : QPointF) :
  heap s !! self = Some (Component c) ->
  store_ok s -> store_ok (snapped s self c p).
Proof.
  intros Hc [Hin Htag]. split.
  - intros r Hr. unfold snapped in *. cbn [heap items] in *.
    rewrite length_insert. apply Hin. exact Hr.
  - apply (lines_tagged_extends (heap s));
      [apply extends_snapped; exact Hc | exact Htag |].
    intros r l Hge Hr. unfold snapped in Hr. cbn [heap] in Hr.
    rewrite lookup_ge_None_2 in Hr by (rewrite length_insert; lia).
    discriminate Hr.
Qed.

Lemma store_ok_bound (s : SimulationScene) (component item : ref)
    (c i : CircuitComponent) :
  heap s !! component = Some (Component c) ->
  heap s !! item = Some (Component i) ->
  item ≠ component ->
  component_type c = TYPE_GATE ->
  component_type i = TYPE_QUBIT ->
  store_ok s -> store_ok (bound_scene s component item c i).
Proof.
  intros Hc Hi Hne Htc Hti [Hin Htag].
  assert (Hlc : component < length (heap s)) by (eapply lookup_lt_Some; eauto).
  assert (Hli : item < length (heap s)) by (eapply lookup_lt_Some; eauto).
  split.
  - intros r Hr. rewrite bound_heap_length.
    apply bound_items_elem in Hr as [-> | [Hr _]]; [lia|].
    apply Hin in Hr. lia.
  - apply (lines_tagged_extends (heap s));
      [apply extends_bound; assumption | exact Htag |].
    intros r l Hge Hr.
    destruct (decide (r = length (heap s))) as [->|Hn].
    + rewrite bound_heap_new in Hr. inversion Hr; subst l.
      cbn [qubit gate connection_line].
      rewrite bound_heap_item by exact Hli.
      rewrite bound_heap_component by assumption.
      eexists. eexists.
      split; [reflexivity|]. split; [exact Hti|].
      split; [reflexivity | exact Htc].
    + rewrite lookup_ge_None_2 in Hr by (rewrite bound_heap_length; lia).
      discriminate Hr.
Qed.

Lemma store_ok_new_component (s : SimulationScene) (item : CircuitComponent) :
  store_ok s ->
  store_ok {| heap := heap s ++ [Component item];
              items := added (length (heap s)) (items s);
              calls := calls s ++ [AddItem (length (heap s))] |}.
Proof.
  intros [Hin Htag]. split; cbn [heap items].
  - intros r Hr. rewrite length_app. cbn [length].
    apply elem_of_added in Hr as [-> | Hr]; [lia|]. apply Hin in Hr. lia.
  - apply (lines_tagged_extends (heap s)); [apply extends_app | exact Htag |].
    intros r l Hge Hr. rewrite lookup_app_r in Hr by exact Hge.
    destruct (r - length (heap s)) as [|n]; [|destruct n]; discriminate Hr.
Qed.

(** ** The outcomes of a drag and release *)

(** A release that returns has either only snapped the component or bound
    it, after the snap, to a qubit of the canvas. *)
Lemma drag_release_inv (s : SimulationScene) (self : ref) (p : QPointF)
    (s' : SimulationScene) :
  (drag_to self p;; mouseReleaseEvent self) s = inr (tt, s') ->
  exists c,
    heap s !! self = Some (Component c) /\
    grid_size c ≠ 0%Z /\
    (s' = snapped s self c p \/
     exists item i,
       self ∈ items s /\ item ∈ items s /\ item ≠ self /\
       heap s !! item = Some (Component i) /\
       component_type c = TYPE_GATE /\
       component_type i = TYPE_QUBIT /\
       s' = bound_scene (snapped s self c p) self item
              (set_pos (snap_nearest p (grid_size c)) c) i).
Proof.
  intros Hrun.
  destruct (heap s !! self) as [[c|l]|] eqn:Hc;
    try (unfold drag_to, mbind, M_bind, modify_component in Hrun;
         rewrite Hc in Hrun; discriminate Hrun).
  assert (Hl : self < length (heap s)) by (eapply lookup_lt_Some; eauto).
  exists c. split; [reflexivity|].
  destruct (Z.eq_dec (grid_size c) 0%Z) as [Hz|Hz].
  { exfalso. unfold drag_to, mbind, M_bind, modify_component in Hrun.
    rewrite Hc in Hrun.
    unfold mouseReleaseEvent, mbind, M_bind, get_component in Hrun.
    cbn [heap] in Hrun. rewrite list_lookup_insert_eq in Hrun by exact Hl.
    cbn [grid_size set_pos] in Hrun. rewrite Hz in Hrun.
    discriminate Hrun. }
  split; [exact Hz|].
  rewrite (drag_release_eq s self c p Hc Hz) in Hrun.
  destruct (bool_decide (self ∈ items s)) eqn:B;
    [|left; inversion Hrun; reflexivity].
  apply bool_decide_eq_true_1 in B.
  set (c1 := set_pos (snap_nearest p (grid_size c)) c) in *.
  assert (Hc1 : heap (snapped s self c p) !! self = Some (Component c1))
    by (apply list_lookup_insert_eq; exact Hl).
  destruct (check_connections_cases self c1 (snapped s self c p) Hc1)
    as [E | (item & i & Hin & Hi & Htc & Hti & E)];
    rewrite E in Hrun; inversion Hrun; [left; reflexivity | right].
  assert (Hne : item ≠ self).
  { intros ->. rewrite Hc1 in Hi. inversion Hi; subst i.
    rewrite Htc in Hti. discriminate Hti. }
  exists item, i.
  split; [exact B|]. split; [exact Hin|]. split; [exact Hne|].
  split; [|split; [exact Htc | split; [exact Hti | reflexivity]]].
  unfold snapped in Hi. cbn [heap] in Hi.
  rewrite list_lookup_insert_ne in Hi
    by (intros E'; apply Hne; symmetry; exact E').
  exact Hi.
Qed.

(** A release of a component with a cell size returns. *)
Lemma drag_release_total (s : SimulationScene) (self : ref)
    (c : CircuitComponent) (p : QPointF) :
  heap s !! self = Some (Component c) ->
  grid_size c ≠ 0%Z ->
  exists s', (drag_to self p;; mouseReleaseEvent self) s = inr (tt, s').
Proof.
  intros Hc Hz.
  assert (Hl : self < length (heap s)) by (eapply lookup_lt_Some; eauto).
  rewrite (drag_release_eq s self c p Hc Hz).
  destruct (bool_decide (self ∈ items s)); [|eexists; reflexivity].
  assert (Hc1 : heap (snapped s self c p) !! self
                = Some (Component (set_pos (snap_nearest p (grid_size c)) c)))
    by (apply list_lookup_insert_eq; exact Hl).
  destruct (check_connections_cases self _ (snapped s self c p) Hc1)
    as [E | (item & i & _ & _ & _ & _ & E)];
    rewrite E; eexists; reflexivity.
Qed.

(** The released component is not what a release removes. *)
Lemma drag_release_stays (s : SimulationScene) (self : ref) (p : QPointF)
    (s' : SimulationScene) :
  self ∈ items s ->
  (drag_to self p;; mouseReleaseEvent self) s = inr (tt, s') ->
  self ∈ items s'.
Proof.
  intros Hin Hrun.
  destruct (drag_release_inv s self p s' Hrun)
    as (c & Hc & Hz & [-> | (item & i & _ & Hit & Hne & Hi & _ & _ & ->)]).
  - exact Hin.
  - assert (Hl : self < length (heap s)) by (eapply lookup_lt_Some; eauto).
    apply bound_items_iff. right. split.
    + apply elem_of_evicted. split; [exact Hin|]. intros H. exact H.
    + unfold line_of.
      rewrite list_lookup_insert_ne by exact Hne.
      rewrite list_lookup_insert_eq
        by (unfold snapped; cbn [heap]; rewrite length_insert; exact Hl).
      reflexivity.
Qed.

(** What a release takes off the canvas is a line, or a gate that had been
    bound. *)
Lemma drag_release_leaves (s : SimulationScene) (self : ref) (p : QPointF)
    (s' : SimulationScene) (r : ref) :
  links_ok s ->
  (drag_to self p;; mouseReleaseEvent self) s = inr (tt, s') ->
  r ∈ items s -> r ∉ items s' ->
  (exists l, heap s !! r = Some (Line l)) \/
  (exists g, heap s !! r = Some (Component g) /\
             component_type g = TYPE_GATE /\
             is_Some (connected_prev g)).
Proof.
  intros Hok Hrun Hin Hout.
  assert (Hrs : r ≠ self).
  { intros ->. apply Hout. eapply drag_release_stays; eassumption. }
  destruct (drag_release_inv s self p s' Hrun)
    as (c & Hc & Hz & [-> | (item & i & _ & Hit & Hne & Hi & Htc & Hti & ->)]).
  - exfalso. apply Hout. exact Hin.
  - assert (Hl : self < length (heap s)) by (eapply lookup_lt_Some; eauto).
    assert (Hli : item < length (heap s)) by (eapply lookup_lt_Some; eauto).
    pose proof (links_ok_set_pos s self c (snap_nearest p (grid_size c))
                  Hok Hc) as Hok1.
    pose proof (extends_snapped s self c p Hc) as Hext1.
    change {| heap := <[self := Component
                          (set_pos (snap_nearest p (grid_size c)) c)]> (heap s);
              items := items s; calls := calls s |}
      with (snapped s self c p) in Hok1.
    set (c1 := set_pos (snap_nearest p (grid_size c)) c) in *.
    set (s1 := snapped s self c p) in *.
    assert (Hc1 : heap s1 !! self = Some (Component c1))
      by (apply list_lookup_insert_eq; exact Hl).
    assert (Hother : forall x, x ≠ self -> heap s1 !! x = heap s !! x).
    { intros x Hx. unfold s1, snapped. cbn [heap].
      apply list_lookup_insert_ne. intros E. apply Hx. symmetry. exact E. }
    assert (Hi1 : heap s1 !! item = Some (Component i))
      by (rewrite Hother by exact Hne; exact Hi).
    destruct (decide (connected_next i = Some r)) as [Hcn|Hcn].
    + right. destruct (Hok1 item i Hi1) as [_ Hnext].
      destruct (Hnext r Hcn) as (_ & g & Hg & Tg & Pg).
      exists g. rewrite <- (Hother r Hrs). auto.
    + left.
      assert (Hev : r ∈ items (evicted (connected_next i) self s1)).
      { apply elem_of_evicted. split; [exact Hin|]. intros _. exact Hcn. }
      destruct (line_of
                  (<[item := Component (attached self item c1 i).2]>
                     (<[self := Component (attached self item c1 i).1]>
                        (heap s1))) item self r) eqn:L.
      * unfold line_of in L.
        destruct (_ !! r) as [[c0|l]|] eqn:E in L; try discriminate L.
        exists l.
        assert (Hlt : r < length (heap s)).
        { apply lookup_lt_Some in E. rewrite !length_insert in E.
          unfold s1, snapped in E. cbn [heap] in E.
          rewrite length_insert in E. exact E. }
        apply (extends_line (heap s)
                 (heap (bound_scene s1 self item c1 i))); [|exact Hlt|].
        -- eapply extends_trans; [exact Hext1|].
           apply extends_bound; assumption.
        -- unfold bound_scene. cbn [heap].
           rewrite lookup_app_l; [exact E|].
           rewrite !length_insert. unfold s1, snapped. cbn [heap].
           rewrite length_insert. exact Hlt.
      * exfalso. apply Hout. apply bound_items_iff. right.
        split; [exact Hev | exact L].
Qed.

(** ** Rounding *)

Lemma Qfloor_unique (q : Q) (k : Z) :
  (inject_Z k <= q)%Q -> (q < inject_Z k + 1)%Q -> Qfloor q = k.
Proof.
  intros Hlo Hhi. destruct (Qfloor_bounds q) as [Flo Fhi].
  assert (H1 : (Qfloor q < k + 1)%Z).
  { rewrite Zlt_Qlt, inject_Z_plus. change (inject_Z 1) with 1%Q. lra. }
  assert (H2 : (k < Qfloor q + 1)%Z).
  { rewrite Zlt_Qlt, inject_Z_plus. change (inject_Z 1) with 1%Q. lra. }
  lia.
Qed.

(** [round] away from a tie: the integer at a distance under one half. *)
Lemma round_near (q : Q) (m : Z) :
  (Qabs (q - inject_Z m) < 1 # 2)%Q -> Py.round q = m.
Proof.
  intros H. apply Qabs_Qlt_condition in H as [Hlo Hhi].
  destruct (round_nearest q) as [Rlo Rhi].
  assert (H1 : (Py.round q < m + 1)%Z).
  { rewrite Zlt_Qlt, inject_Z_plus. change (inject_Z 1) with 1%Q. lra. }
  assert (H2 : (m < Py.round q + 1)%Z).
  { rewrite Zlt_Qlt, inject_Z_plus. change (inject_Z 1) with 1%Q. lra. }
  lia.
Qed.

(** [round] at a tie: the even neighbour. *)
Lemma round_half (q : Q) (k : Z) :
  (q == inject_Z k + (1 # 2))%Q ->
  Py.round q = if Z.even k then k else (k + 1)%Z.
Proof.
  intros Hq. unfold Py.round.
  assert (Hf : Qfloor q = k) by (apply Qfloor_unique; lra).
  rewrite Hf.
  destruct (Qcompare_spec (q - inject_Z k) (1 # 2)) as [He | Hl | Hg].
  - reflexivity.
  - lra.
  - lra.
Qed.

(** X14.  The snap of a release, for a cell size [g > 0]: a coordinate at
    a distance under half a cell from a grid line goes to that line, and a
    coordinate half-way between two grid lines goes to the one of even
    index, as [round] sends a tie to the even neighbour. *)
Theorem snap_nearest_coord_ties (g : Z) :
  (0 < g)%Z ->
  (forall (v : Q) (m : Z),
     (Qabs (v - inject_Z (m * g)) < inject_Z g / 2)%Q ->
     snap_nearest_coord v g = (m * g)%Z) /\
  (forall k : Z,
     snap_nearest_coord (inject_Z ((2 * k + 1) * g) / 2) g
     = ((if Z.even k then k else k + 1) * g)%Z).
Proof.
  intros Hg. pose proof (inject_Z_pos g Hg) as HG. split.
  - intros v m Hv. unfold snap_nearest_coord. f_equal.
    apply round_near.
    apply Qabs_Qlt_condition in Hv as [Hlo Hhi].
    rewrite inject_Z_mult in Hlo, Hhi.
    apply Qabs_Qlt_condition.
    pose proof (Qdiv_inject_cancel v g Hg) as Hd.
    set (d := (v / inject_Z g)%Q) in *.
    set (G := inject_Z g) in *. set (M := inject_Z m) in *.
    assert (Hhalf : (G / 2 == G * (1 # 2))%Q) by field.
    rewrite Hhalf in Hlo, Hhi. clearbody d G M.
    split.
    + destruct (Qlt_le_dec (- (1 # 2)) (d - M)) as [H|H]; [exact H|].
      exfalso. assert ((d - M) * G <= - (1 # 2) * G)%Q by nra. lra.
    + destruct (Qlt_le_dec (d - M) (1 # 2)) as [H|H]; [exact H|].
      exfalso. assert ((1 # 2) * G <= (d - M) * G)%Q by nra. lra.
  - intros k. unfold snap_nearest_coord. f_equal.
    apply round_half.
    rewrite inject_Z_mult, inject_Z_plus, inject_Z_mult.
    change (inject_Z 1) with 1%Q. change (inject_Z 2) with 2%Q.
    field. lra.
Qed.

(** With cells of 24: 12 goes to 0 and 36 goes to 48 (the ties), 11 goes to
    0 and 13 goes to 24. *)
Lemma snap_nearest_coord_ties_example :
  snap_nearest_coord (inject_Z 12) 24 = 0%Z /\
  snap_nearest_coord (inject_Z 36) 24 = 48%Z /\
  snap_nearest_coord (inject_Z 11) 24 = 0%Z /\
  snap_nearest_coord (inject_Z 13) 24 = 24%Z /\
  forall k : Z,
    snap_nearest_coord (inject_Z ((2 * k + 1) * 24) / 2) 24
    = ((if Z.even k then k else k + 1) * 24)%Z.
Proof.
  assert (Hg : (0 < 24)%Z) by lia.
  split; [reflexivity|]. split; [reflexivity|].
  split; [reflexivity|]. split; [reflexivity|].
  exact (proj2 (snap_nearest_coord_ties 24 Hg)).
Defined.

(** ** The line of a binding *)

(** X13.  When connection resolution binds the gate [component] to the
    qubit [item], the line it draws is a new object of the store, on the
    canvas, tagged with the pair.  It starts at the middle of the right edge
    of the qubit's pixmap and ends at the position that the binding has just
    given to the gate, six cells to the right of the qubit, at half the
    height of the gate's pixmap.  No other line of the canvas carries the
    tag.  The positions of the two components are pixel points, so that the
    [setPos] of line 154 has moved the gate when line 179 reads its
    position ([attach_setPos_exact]). *)
Theorem check_connections_draws_line (s : SimulationScene)
    (component item : ref) (c i : CircuitComponent) :
  heap s !! component = Some (Component c) ->
  heap s !! item = Some (Component i) ->
  pixel_point (pos c) = true ->
  pixel_point (pos i) = true ->
  first_candidate s component item ->
  exists s',
    check_connections component s = inr (tt, s') /\
    heap s' !! length (heap s) =
      Some (Line
              {| line :=
                   ((xp (pos i) + inject_Z (width (pixmap i)))%Q,
                    (yp (pos i) + inject_Z (height (pixmap i)) / 2)%Q,
                    (xp (pos i) + inject_Z (grid_size c * 6))%Q,
                    (yp (pos i) + inject_Z (height (pixmap c)) / 2)%Q);
                 qubit := item;
                 gate := component |}) /\
    length (heap s) ∈ items s' /\
    forall r l,
      r ∈ items s' -> heap s' !! r = Some (Line l) ->
      qubit l = item -> gate l = component -> r = length (heap s).
Proof.
  intros Hc Hi _ _ Hfirst.
  destruct (check_connections_first s component item c i Hc Hi Hfirst)
    as (Hne & _ & _ & Hrun).
  assert (Hlc : component < length (heap s)) by (eapply lookup_lt_Some; eauto).
  assert (Hli : item < length (heap s)) by (eapply lookup_lt_Some; eauto).
  exists (bound_scene s component item c i).
  split; [exact Hrun|]. split; [apply bound_heap_new|]. split.
  - apply bound_items_iff. left. reflexivity.
  - intros r l Hin Hr Hq Hg.
    destruct (decide (r = length (heap s))) as [E|Hn]; [exact E | exfalso].
    apply bound_items_iff in Hin as [E | [_ Hlo]]; [contradiction|].
    destruct (decide (r < length (heap s))) as [Hlt|Hge].
    + unfold bound_scene in Hr. cbn [heap] in Hr.
      rewrite lookup_app_l in Hr by (rewrite !length_insert; exact Hlt).
      unfold line_of in Hlo. rewrite Hr in Hlo.
      rewrite !bool_decide_eq_true_2 in Hlo by assumption.
      discriminate Hlo.
    + rewrite lookup_ge_None_2 in Hr by (rewrite bound_heap_length; lia).
      discriminate Hr.
Qed.

(** ** Interactions, one at a time and in sequence *)

Lemma snapped_lookup (s : SimulationScene) (self : ref)
    (c : CircuitComponent) (p : QPointF) :
  heap s !! self = Some (Component c) ->
  heap (snapped s self c p) !! self
  = Some (Component (set_pos (snap_nearest p (grid_size c)) c)) /\
  forall x, x ≠ self -> heap (snapped s self c p) !! x = heap s !! x.
Proof.
  intros Hc.
  assert (Hl : self < length (heap s)) by (eapply lookup_lt_Some; eauto).
  unfold snapped. cbn [heap]. split.
  - apply list_lookup_insert_eq. exact Hl.
  - intros x Hx. apply list_lookup_insert_ne.
    intros E. apply Hx. symmetry. exact E.
Qed.

Lemma extends_drag_release (s : SimulationScene) (self : ref) (p : QPointF)
    (s' : SimulationScene) :
  (drag_to self p;; mouseReleaseEvent self) s = inr (tt, s') ->
  extends (heap s) (heap s').
Proof.
  intros Hrun.
  destruct (drag_release_inv s self p s' Hrun)
    as (c & Hc & Hz & [-> | (item & i & _ & _ & Hne & Hi & _ & _ & ->)]).
  - apply extends_snapped. exact Hc.
  - destruct (snapped_lookup s self c p Hc) as [Hc1 Hother].
    eapply extends_trans; [apply (extends_snapped s self c p Hc)|].
    apply extends_bound; [exact Hc1 | | exact Hne].
    rewrite Hother by exact Hne. exact Hi.
Qed.

Lemma store_ok_drag_release (s : SimulationScene) (self : ref) (p : QPointF)
    (s' : SimulationScene) :
  store_ok s ->
  (drag_to self p;; mouseReleaseEvent self) s = inr (tt, s') ->
  store_ok s'.
Proof.
  intros Hst Hrun.
  destruct (drag_release_inv s self p s' Hrun)
    as (c & Hc & Hz & [-> | (item & i & _ & _ & Hne & Hi & Htc & Hti & ->)]).
  - apply store_ok_snapped; assumption.
  - destruct (snapped_lookup s self c p Hc) as [Hc1 Hother].
    apply store_ok_bound;
      [exact Hc1 | | exact Hne | exact Htc | exact Hti
       | apply store_ok_snapped; assumption].
    rewrite Hother by exact Hne. exact Hi.
Qed.

(** X15.  The release of a qubit only moves the qubit: it is put at the
    snap of the pointer's position and the scene is otherwise as it was.
    A gate bound to the qubit keeps its position and both links, and the
    line between them keeps its end points.  The position of the release is
    a pixel point, so that the [setPos] of line 52 does move the qubit
    ([release_setPos_exact]). *)
Theorem release_of_qubit_moves_it_alone (s : SimulationScene) (self : ref)
    (c : CircuitComponent) (p : QPointF) :
  heap s !! self = Some (Component c) ->
  component_type c = TYPE_QUBIT ->
  grid_size c ≠ 0%Z ->
  pixel_point p = true ->
  (drag_to self p;; mouseReleaseEvent self) s
  = inr (tt, {| heap := <[self := Component
                           (set_pos (snap_nearest p (grid_size c)) c)]>
                          (heap s);
                items := items s;
                calls := calls s |}).
Proof.
  intros Hc Hty Hz _.
  rewrite (drag_release_eq s self c p Hc Hz).
  destruct (bool_decide (self ∈ items s)); [|reflexivity].
  destruct (snapped_lookup s self c p Hc) as [Hc1 _].
  destruct (check_connections_cases self _ (snapped s self c p) Hc1)
    as [E | (item & i & _ & _ & Htc & _ & _)]; [exact E | exfalso].
  cbn [component_type set_pos] in Htc. rewrite Hty in Htc. discriminate Htc.
Qed.

(** The qubit of the eviction session, dragged to (200, 203): it goes to
    (192, 192), and the gate bound to it (object 1) and their line
    (object 2) are as before. *)
Lemma release_of_qubit_example :
  exists c s',
    heap Demo.evicting !! 0 = Some (Component c) /\
    pixel_point (Demo.at_ 200 203) = true /\
    (drag_to 0 (Demo.at_ 200 203);; mouseReleaseEvent 0) Demo.evicting
    = inr (tt, s') /\
    pos <$> Demo.component_of 0 (inr {| scale := 24; scene := s' |})
    = Some (Demo.at_ 192 192) /\
    heap s' !! 1 = heap Demo.evicting !! 1 /\
    heap s' !! 2 = heap Demo.evicting !! 2 /\
    items s' = items Demo.evicting.
Proof.
  eexists. eexists. split; [reflexivity|]. split; [reflexivity|].
  assert (Hg : 24%Z ≠ 0%Z) by lia.
  split;
    [exact (release_of_qubit_moves_it_alone Demo.evicting 0 _
              (Demo.at_ 200 203) eq_refl eq_refl Hg eq_refl)|].
  split; [vm_compute; reflexivity|].
  split; [reflexivity|]. split; reflexivity.
Defined.

Section Interactions.

Variable unicode_numeric : N -> bool.
Variable py_int : Py.str -> option Z.
Variable load_pixmap : Py.str -> QPixmap.

Lemma dropEvent_inv (w w' : SimulationWindow) (event : QDropEvent) :
  dropEvent unicode_numeric py_int load_pixmap w event = inr w' ->
  (mime_text event = None /\ w' = w) \/
  exists text item,
    mime_text event = Some text /\
    connected_prev item = None /\
    connected_next item = None /\
    pos item = snap_floor (scene_pos event) (scale w) /\
    grid_size item = scale w /\
    w' = {| scale := scale w;
            scene :=
              {| heap := heap (scene w) ++ [Component item];
                 items := added (length (heap (scene w))) (items (scene w));
                 calls := calls (scene w)
                          ++ [AddItem (length (heap (scene w)))] |} |}.
Proof.
  intros Hdrop. unfold dropEvent in Hdrop.
  destruct (mime_text event) as [text|].
  - right. unfold mbind at 1, result_bind in Hdrop.
    destruct (dropped_component _ _ _ _ _ _) as [e|item] eqn:Hitem;
      [discriminate Hdrop|].
    apply dropped_component_fresh in Hitem as (Hp & Hn & Hpos & Hgrid).
    cbn in Hdrop. inversion Hdrop.
    exists text, item.
    split; [reflexivity|]. split; [exact Hp|]. split; [exact Hn|].
    split; [exact Hpos|]. split; [exact Hgrid | reflexivity].
  - left. inversion Hdrop. split; reflexivity.
Qed.

Lemma step_extends (w w' : SimulationWindow) :
  step unicode_numeric py_int load_pixmap w w' ->
  scale w' = scale w /\ extends (heap (scene w)) (heap (scene w')).
Proof.
  intros Hstep.
  destruct Hstep as [w w' event Hdrop | w self p scene' Hin Hrun].
  - apply dropEvent_inv in Hdrop
      as [[_ ->] | (text & item & _ & _ & _ & _ & _ & ->)].
    + split; [reflexivity | apply extends_refl].
    + split; [reflexivity | apply extends_app].
  - split; [reflexivity|]. cbn [scene].
    eapply extends_drag_release. exact Hrun.
Qed.

Lemma rtc_step_extends (w w' : SimulationWindow) :
  rtc (step unicode_numeric py_int load_pixmap) w w' ->
  scale w' = scale w /\ extends (heap (scene w)) (heap (scene w')).
Proof.
  revert w'.
  apply (rtc_ind_r (fun w' => scale w' = scale w /\
                              extends (heap (scene w)) (heap (scene w')))).
  - split; [reflexivity | apply extends_refl].
  - intros y z _ Hstep [Hs Hext].
    destruct (step_extends y z Hstep) as [Hs' Hext'].
    split; [congruence | eapply extends_trans; eassumption].
Qed.

Lemma store_ok_step (w w' : SimulationWindow) :
  step unicode_numeric py_int load_pixmap w w' ->
  store_ok (scene w) -> store_ok (scene w').
Proof.
  intros Hstep Hst.
  destruct Hstep as [w w' event Hdrop | w self p scene' Hin Hrun].
  - apply dropEvent_inv in Hdrop
      as [[_ ->] | (text & item & _ & _ & _ & _ & _ & ->)].
    + exact Hst.
    + cbn [scene]. apply store_ok_new_component. exact Hst.
  - cbn [scene]. eapply store_ok_drag_release; eassumption.
Qed.

Lemma reachable_store (w : SimulationWindow) :
  reachable unicode_numeric py_int load_pixmap w ->
  scale w = 24%Z /\ aligned (scene w) /\ store_ok (scene w).
Proof.
  unfold reachable. revert w.
  apply (rtc_ind_r (fun w => scale w = 24%Z /\ aligned (scene w) /\
                             store_ok (scene w))).
  - split; [reflexivity|]. split.
    + intros r c Hr. discriminate Hr.
    + split.
      * intros r Hr. apply elem_of_nil in Hr. contradiction.
      * intros r l Hr. discriminate Hr.
  - intros y z _ Hstep (Hs & Hal & Hst).
    destruct (aligned_step unicode_numeric py_int load_pixmap y z Hstep
                (conj Hs Hal)) as [Hs' Hal'].
    split; [exact Hs'|]. split; [exact Hal'|].
    eapply store_ok_step; eassumption.
Qed.

Lemma step_leaves_canvas (w w' : SimulationWindow) (r : ref) :
  links_ok (scene w) ->
  step unicode_numeric py_int load_pixmap w w' ->
  r ∈ items (scene w) -> r ∉ items (scene w') ->
  (exists l, heap (scene w) !! r = Some (Line l)) \/
  (exists g, heap (scene w) !! r = Some (Component g) /\
             component_type g = TYPE_GATE /\
             is_Some (connected_prev g)).
Proof.
  intros Hok Hstep Hin Hout.
  destruct Hstep as [w w' event Hdrop | w self p scene' Hself Hrun].
  - exfalso. apply Hout.
    apply dropEvent_inv in Hdrop
      as [[_ ->] | (text & item & _ & _ & _ & _ & _ & ->)]; [exact Hin|].
    cbn [scene items]. apply elem_of_added. right. exact Hin.
  - cbn [scene] in Hout. eapply drag_release_leaves; eassumption.
Qed.

Lemma rtc_step_stays (w w' : SimulationWindow) (r : ref)
    (c : CircuitComponent) :
  reachable unicode_numeric py_int load_pixmap w ->
  rtc (step unicode_numeric py_int load_pixmap) w w' ->
  r ∈ items (scene w) ->
  heap (scene w) !! r = Some (Component c) ->
  component_type c ≠ TYPE_GATE ->
  r ∈ items (scene w').
Proof.
  intros Hw Hrun Hin Hc Hty.
  assert (H : reachable unicode_numeric py_int load_pixmap w' /\
              r ∈ items (scene w')); [|apply H].
  revert w' Hrun.
  apply (rtc_ind_r (fun w' =>
           reachable unicode_numeric py_int load_pixmap w' /\
           r ∈ items (scene w'))).
  - split; assumption.
  - intros y z Hwy Hstep [Hy Hiny]. split.
    + unfold reachable in *. eapply rtc_r; eassumption.
    + destruct (decide (r ∈ items (scene z))) as [Hz|Hz]; [exact Hz | exfalso].
      destruct (rtc_step_extends w y Hwy) as [_ Hext].
      destruct (extends_component _ _ r c Hext Hc)
        as (c' & Hc' & _ & Hty' & _).
      pose proof (links_ok_reachable unicode_numeric py_int load_pixmap y Hy)
        as Hok.
      destruct (step_leaves_canvas y z r Hok Hstep Hiny Hz)
        as [(l & Hl) | (g & Hg & Tg & _)]; [congruence|].
      rewrite Hc' in Hg. inversion Hg; subst g. congruence.
Qed.

(** X7.  In a state that the editor can reach, a drop that carries a text
    and does not raise adds exactly one component to the store, puts it
    first in [items()] with one [addItem] call, and changes nothing else.
    The new component has the cell size 24, sits at the drop-time snap of
    the drop position, and is linked to nothing, wherever it is dropped:
    a drop does not resolve connections. *)
Theorem drop_adds_one_component (w w' : SimulationWindow)
    (event : QDropEvent) (text : Py.str) :
  reachable unicode_numeric py_int load_pixmap w ->
  mime_text event = Some text ->
  dropEvent unicode_numeric py_int load_pixmap w event = inr w' ->
  exists c,
    heap (scene w') = heap (scene w) ++ [Component c] /\
    items (scene w') = length (heap (scene w)) :: items (scene w) /\
    calls (scene w') = calls (scene w) ++ [AddItem (length (heap (scene w)))] /\
    scale w' = scale w /\
    connected_prev c = None /\
    connected_next c = None /\
    grid_size c = 24%Z /\
    pos c = snap_floor (scene_pos event) 24.
Proof.
  intros Hw Htext Hdrop.
  destruct (reachable_store w Hw) as (Hs & _ & Hin & _).
  apply dropEvent_inv in Hdrop
    as [[E _] | (text' & item & _ & Hp & Hn & Hpos & Hgrid & ->)];
    [congruence|].
  exists item. cbn [scene heap items calls scale].
  split; [reflexivity|]. split.
  - unfold added. rewrite bool_decide_eq_false_2; [reflexivity|].
    intros H. apply Hin in H. lia.
  - split; [reflexivity|]. split; [reflexivity|].
    split; [exact Hp|]. split; [exact Hn|].
    rewrite <- Hs. split; assumption.
Qed.

(** X8.  In every state that the editor can reach, every item of the
    scene is an object that the program created, and every connection line
    ever drawn, on the canvas or not, is tagged with a component of the qubit
    kind as its qubit and a component of the gate kind as its gate. *)
Theorem reachable_store_ok (w : SimulationWindow) :
  reachable unicode_numeric py_int load_pixmap w ->
  store_ok (scene w).
Proof. intros Hw. apply (reachable_store w Hw). Qed.

(** X9.  In a state that the editor can reach, the drag and release of a
    component of the scene never raises: the cell size is not zero and
    connection resolution only reads attributes of components.  The released
    component is still on the canvas afterwards. *)
Theorem release_never_raises (w : SimulationWindow) (self : ref)
    (c : CircuitComponent) (p : QPointF) :
  reachable unicode_numeric py_int load_pixmap w ->
  self ∈ items (scene w) ->
  heap (scene w) !! self = Some (Component c) ->
  exists scene',
    (drag_to self p;; mouseReleaseEvent self) (scene w) = inr (tt, scene') /\
    self ∈ items scene'.
Proof.
  intros Hw Hin Hc.
  destruct (reachable_store w Hw) as (_ & Hal & _).
  destruct (Hal self c Hc) as [Hg _].
  assert (Hz : grid_size c ≠ 0%Z) by lia.
  destruct (drag_release_total (scene w) self c p Hc Hz) as (scene' & Hrun).
  exists scene'. split; [exact Hrun|].
  eapply drag_release_stays; eassumption.
Qed.

(** X10.  In a state that the editor can reach, what one interaction takes
    off the canvas is a connection line, or a component of the gate kind
    whose [connected_prev] was set.  Nothing else ever leaves. *)
Theorem interaction_removes_lines_and_bound_gates
    (w w' : SimulationWindow) (r : ref) :
  reachable unicode_numeric py_int load_pixmap w ->
  step unicode_numeric py_int load_pixmap w w' ->
  r ∈ items (scene w) -> r ∉ items (scene w') ->
  (exists l, heap (scene w) !! r = Some (Line l)) \/
  (exists g, heap (scene w) !! r = Some (Component g) /\
             component_type g = TYPE_GATE /\
             is_Some (connected_prev g)).
Proof.
  intros Hw. apply step_leaves_canvas.
  apply (links_ok_reachable unicode_numeric py_int load_pixmap w Hw).
Qed.

(** X11.  Whatever the interactions, the cell size of the window does not
    change, no object of the store disappears, a line stays as it was
    created (its end points and its tags are never updated), and a component
    keeps its name, its kind, its cell size and its pixmap. *)
Theorem interactions_keep_identity (w w' : SimulationWindow) :
  rtc (step unicode_numeric py_int load_pixmap) w w' ->
  scale w' = scale w /\ extends (heap (scene w)) (heap (scene w')).
Proof. apply rtc_step_extends. Qed.

(** X12.  A component of the canvas that is not of the gate kind stays on
    the canvas through every later interaction: only lines and gates are
    ever removed. *)
Theorem non_gates_stay_on_canvas (w w' : SimulationWindow) (r : ref)
    (c : CircuitComponent) :
  reachable unicode_numeric py_int load_pixmap w ->
  rtc (step unicode_numeric py_int load_pixmap) w w' ->
  r ∈ items (scene w) ->
  heap (scene w) !! r = Some (Component c) ->
  component_type c ≠ TYPE_GATE ->
  r ∈ items (scene w').
Proof. apply rtc_step_stays. Qed.

End Interactions.

(** *** The eviction session as an example *)

Lemma evicting_reachable :
  reachable Demo.numeric Demo.int Demo.pixmaps
    {| scale := 24; scene := Demo.evicting |}.
Proof.
  apply (run_reachable Demo.numeric Demo.int Demo.pixmaps Demo.eviction_before
           init_window).
  - apply rtc_refl.
  - vm_compute. reflexivity.
Qed.

Lemma evicting_release :
  (drag_to 3 (Demo.at_ 50 10);; mouseReleaseEvent 3) Demo.evicting
  = inr (tt, Demo.after_eviction).
Proof. vm_compute. reflexivity. Qed.

Lemma evicting_step :
  step Demo.numeric Demo.int Demo.pixmaps
    {| scale := 24; scene := Demo.evicting |}
    {| scale := 24; scene := Demo.after_eviction |}.
Proof.
  apply (step_drag_release Demo.numeric Demo.int Demo.pixmaps
           {| scale := 24; scene := Demo.evicting |} 3 (Demo.at_ 50 10)
           Demo.after_eviction).
  - change (3 ∈ [3; 2; 1; 0]). apply list_elem_of_here.
  - exact evicting_release.
Qed.

(** A gate dropped at (30, 20), next to the qubit of the eviction session:
    it lands at (24, 0) and nothing is connected. *)
Lemma drop_adds_one_component_example :
  exists w',
    dropEvent Demo.numeric Demo.int Demo.pixmaps
      {| scale := 24; scene := Demo.evicting |}
      {| mime_text := Some (Py.of_string "1,Pauli-Z");
         scene_pos := Demo.at_ 30 20 |}
    = inr w' /\
    exists c,
      heap (scene w') = heap Demo.evicting ++ [Component c] /\
      items (scene w') = 4 :: items Demo.evicting /\
      calls (scene w') = calls Demo.evicting ++ [AddItem 4] /\
      scale w' = 24%Z /\
      connected_prev c = None /\
      connected_next c = None /\
      grid_size c = 24%Z /\
      pos c = snap_floor (Demo.at_ 30 20) 24.
Proof.
  eexists. split; [vm_compute; reflexivity|].
  apply (drop_adds_one_component Demo.numeric Demo.int Demo.pixmaps
           {| scale := 24; scene := Demo.evicting |} _
           {| mime_text := Some (Py.of_string "1,Pauli-Z");
              scene_pos := Demo.at_ 30 20 |}
           (Py.of_string "1,Pauli-Z") evicting_reachable eq_refl).
  vm_compute. reflexivity.
Defined.

Lemma reachable_store_ok_example :
  reachable Demo.numeric Demo.int Demo.pixmaps
    {| scale := 24; scene := Demo.after_eviction |} /\
  store_ok Demo.after_eviction.
Proof.
  split; [exact eviction_reachable|].
  exact (reachable_store_ok Demo.numeric Demo.int Demo.pixmaps
           {| scale := 24; scene := Demo.after_eviction |}
           eviction_reachable).
Defined.

Lemma release_never_raises_example :
  exists c,
    heap Demo.evicting !! 3 = Some (Component c) /\
    (3 ∈ items Demo.evicting) /\
    exists scene',
      (drag_to 3 (Demo.at_ 50 10);; mouseReleaseEvent 3) Demo.evicting
      = inr (tt, scene') /\
      3 ∈ items scene'.
Proof.
  eexists. split; [reflexivity|].
  assert (Hin : 3 ∈ items Demo.evicting)
    by (change (3 ∈ [3; 2; 1; 0]); apply list_elem_of_here).
  split; [exact Hin|].
  exact (release_never_raises Demo.numeric Demo.int Demo.pixmaps
           {| scale := 24; scene := Demo.evicting |} 3 _ (Demo.at_ 50 10)
           evicting_reachable Hin eq_refl).
Defined.

(** The release of the second gate takes the first gate (object 1) off the
    canvas. *)
Lemma interaction_removes_gate_example :
  (1 ∈ items Demo.evicting) /\
  (1 ∉ items Demo.after_eviction) /\
  ((exists l, heap Demo.evicting !! 1 = Some (Line l)) \/
   (exists g, heap Demo.evicting !! 1 = Some (Component g) /\
              component_type g = TYPE_GATE /\
              is_Some (connected_prev g))).
Proof.
  assert (Hin : 1 ∈ items Demo.evicting).
  { change (1 ∈ [3; 2; 1; 0]). rewrite !elem_of_cons. tauto. }
  assert (Hout : 1 ∉ items Demo.after_eviction).
  { change (1 ∉ [4; 3; 2; 0]). rewrite !elem_of_cons, elem_of_nil. lia. }
  split; [exact Hin|]. split; [exact Hout|].
  exact (interaction_removes_lines_and_bound_gates
           Demo.numeric Demo.int Demo.pixmaps
           {| scale := 24; scene := Demo.evicting |}
           {| scale := 24; scene := Demo.after_eviction |} 1
           evicting_reachable evicting_step Hin Hout).
Defined.

Lemma interactions_keep_identity_example :
  24%Z = 24%Z /\ extends (heap Demo.evicting) (heap Demo.after_eviction).
Proof.
  exact (interactions_keep_identity Demo.numeric Demo.int Demo.pixmaps
           {| scale := 24; scene := Demo.evicting |}
           {| scale := 24; scene := Demo.after_eviction |}
           (rtc_once _ _ evicting_step)).
Defined.

(** The qubit of the eviction session (object 0) is still on the canvas
    after the release that evicts the gate. *)
Lemma non_gates_stay_example :
  exists c,
    heap Demo.evicting !! 0 = Some (Component c) /\
    component_type c = TYPE_QUBIT /\
    0 ∈ items Demo.after_eviction.
Proof.
  eexists. split; [reflexivity|]. split; [reflexivity|].
  assert (Hin : 0 ∈ items Demo.evicting).
  { change (0 ∈ [3; 2; 1; 0]). rewrite !elem_of_cons. tauto. }
  assert (Hty : TYPE_QUBIT ≠ TYPE_GATE) by discriminate.
  exact (non_gates_stay_on_canvas Demo.numeric Demo.int Demo.pixmaps
           {| scale := 24; scene := Demo.evicting |}
           {| scale := 24; scene := Demo.after_eviction |} 0 _
           evicting_reachable (rtc_once _ _ evicting_step) Hin eq_refl Hty).
Defined.

(** The second gate of the eviction session (object 3), released next to
    the qubit at the origin: the line is object 4, from (48, 24) to
    (144, 24). *)
Lemma draws_line_example :
  exists c i,
    heap Demo.evicting !! 3 = Some (Component c) /\
    heap Demo.evicting !! 0 = Some (Component i) /\
    pixel_point (pos c) = true /\
    pixel_point (pos i) = true /\
    first_candidate Demo.evicting 3 0 /\
    ((xp (pos i) + inject_Z (width (pixmap i)))%Q,
     (yp (pos i) + inject_Z (height (pixmap i)) / 2)%Q,
     (xp (pos i) + inject_Z (grid_size c * 6))%Q,
     (yp (pos i) + inject_Z (height (pixmap c)) / 2)%Q)
    = (inject_Z 48, (48 # 2)%Q, inject_Z 144, (48 # 2)%Q) /\
    exists s',
      check_connections 3 Demo.evicting = inr (tt, s') /\
      heap s' !! length (heap Demo.evicting) =
        Some (Line
                {| line :=
                     ((xp (pos i) + inject_Z (width (pixmap i)))%Q,
                      (yp (pos i) + inject_Z (height (pixmap i)) / 2)%Q,
                      (xp (pos i) + inject_Z (grid_size c * 6))%Q,
                      (yp (pos i) + inject_Z (height (pixmap c)) / 2)%Q);
                   qubit := 0;
                   gate := 3 |}) /\
      length (heap Demo.evicting) ∈ items s' /\
      forall r l,
        r ∈ items s' -> heap s' !! r = Some (Line l) ->
        qubit l = 0 -> gate l = 3 -> r = length (heap Demo.evicting).
Proof.
  eexists. eexists. split; [reflexivity|]. split; [reflexivity|].
  split; [reflexivity|]. split; [reflexivity|].
  assert (Hfirst : first_candidate Demo.evicting 3 0).
  { exists [3; 2; 1], []. split; [reflexivity|]. split; [reflexivity|].
    intros r Hr. repeat (apply elem_of_cons in Hr as [-> | Hr]; [reflexivity|]).
    apply elem_of_nil in Hr. contradiction. }
  split; [exact Hfirst|]. split; [vm_compute; reflexivity|].
  exact (check_connections_draws_line Demo.evicting 3 0 _ _
           eq_refl eq_refl eq_refl eq_refl Hfirst).
Defined.
